(** * The token cache manager of auth0-spa-js ([src/cache/cache-manager.ts])

    A shallow embedding of [CacheManager]: its [get], [set], [clear],
    [clearSync], [wrapCacheEntry], [getCacheKeys] and
    [matchExistingCacheKey], over a key/value backend held as a finite map
    (which hands out the objects it stores, or copies of them) and a key
    manifest held as one optional record.  Calls to the backend and to the manifest are threaded
    through a small state monad that also records every call issued. *)

From Stdlib Require Import ZArith Ascii.
From stdpp Require Import gmap strings list fin_maps.

Local Open Scope string_scope.
Local Open Scope list_scope.
Local Open Scope Z_scope.

(** ** JavaScript strings *)

(** [s1.startsWith(s2)]. *)
Fixpoint startsWith (p s : string) : bool :=
  match p, s with
  | EmptyString, _ => true
  | String a p', String b s' => if Ascii.eqb a b then startsWith p' s' else false
  | String _ _, EmptyString => false
  end.

(** The scan of [s.split(sep)] for a non-empty separator: [skip] counts the
    characters of a separator occurrence still to be dropped, [cur] is the
    segment read so far (reversed). *)
Fixpoint split_scan (sep s : string) (skip : nat) (cur : string) : list string :=
  match s with
  | EmptyString => [String.rev cur]
  | String c s' =>
      match skip with
      | S n => split_scan sep s' n cur
      | O =>
          if startsWith sep s
          then String.rev cur :: split_scan sep s' (Nat.pred (String.length sep)) EmptyString
          else split_scan sep s' O (String c cur)
      end
  end.

(** [s.split(sep)], for the two non-empty separators the cache uses. *)
Definition split (sep s : string) : list string := split_scan sep s O EmptyString.

(** Truthiness of a possibly undefined string: [undefined] and the empty
    string are falsy. *)
Definition truthy (o : option string) : bool :=
  match o with
  | Some (String _ _) => true
  | _ => false
  end.

(** ** Data model *)

(** The payload of a token: [decodedToken.claims.exp]. *)
Record Claims := { exp : Z }.
Record DecodedToken := { claims : Claims }.

(** [CacheEntry], as handed to [set]; the type is declared in [shared.ts],
    and these are the fields the manager reads, with the access token the
    narrowing discards. *)
Record CacheEntry := {
  client_id : string;
  scope : string;
  audience : string;
  access_token : string;
  expires_in : Z;
  decodedToken : DecodedToken;
  refresh_token : option string
}.

(** [Partial<CacheEntry>]: every field may be absent.  This is the type of a
    stored body and of the result of [get]. *)
Record PartialCacheEntry := {
  body_client_id : option string;
  body_scope : option string;
  body_audience : option string;
  body_access_token : option string;
  body_expires_in : option Z;
  body_decodedToken : option DecodedToken;
  body_refresh_token : option string
}.

(** A full entry seen as a [Partial<CacheEntry>] ([body: entry]). *)
Definition as_body (entry : CacheEntry) : PartialCacheEntry :=
  {| body_client_id := Some (client_id entry);
     body_scope := Some (scope entry);
     body_audience := Some (audience entry);
     body_access_token := Some (access_token entry);
     body_expires_in := Some (expires_in entry);
     body_decodedToken := Some (decodedToken entry);
     body_refresh_token := refresh_token entry |}.

(** The object literal [{ refresh_token: r }]. *)
Definition refresh_only (r : option string) : PartialCacheEntry :=
  {| body_client_id := None;
     body_scope := None;
     body_audience := None;
     body_access_token := None;
     body_expires_in := None;
     body_decodedToken := None;
     body_refresh_token := r |}.

(** [WrappedCacheEntry]: the persisted unit, a body and its absolute expiry
    in epoch seconds. *)
Record WrappedCacheEntry := {
  body : PartialCacheEntry;
  expiresAt : Z
}.

(** Modelled from the spec: the cache key of [shared.ts], which is not part
    of the sources at hand.  A key is the composite
    [{prefix, client_id, audience, scope}]. *)
Record CacheKey := {
  key_prefix : string;
  key_client_id : string;
  key_audience : string;
  key_scope : string
}.

(** Modelled from the spec: the result of parsing a key string.  Parsing is
    permissive, a segment that is missing is an absent field. *)
Record ParsedCacheKey := {
  parsed_prefix : option string;
  parsed_client_id : option string;
  parsed_audience : option string;
  parsed_scope : option string
}.

(** Modelled from the spec: [CacheKey.toKey] of [shared.ts]: the fields in the
    order prefix, client_id, audience, scope joined by the delimiter. *)
Definition toKey (k : CacheKey) : string :=
  key_prefix k +:+ "::" +:+ key_client_id k +:+ "::" +:+ key_audience k +:+ "::"
    +:+ key_scope k.

(** Modelled from the spec: [CacheKey.fromKey] of [shared.ts]: the first four
    segments of the string between delimiters. *)
Definition fromKey (key : string) : ParsedCacheKey :=
  let segs := split "::" key in
  {| parsed_prefix := segs !! 0%nat;
     parsed_client_id := segs !! 1%nat;
     parsed_audience := segs !! 2%nat;
     parsed_scope := segs !! 3%nat |}.

(** ** The backend and the manifest *)

(** Modelled from the spec: the record of the key manifest of
    [key-manifest.ts], which is not part of the sources at hand: the keys the
    manager has written, without duplicates. *)
Record KeyManifestEntry := { keys : list string }.

(** Modelled from the spec: the storage backend [ICache] of [shared.ts].  Its
    [get], [set] and [remove] are those of a key/value store; the optional
    [allKeys] lists keys of the store in an order of the backend's choosing.
    Two things the contract leaves to the backend are kept as fields:
    whether its methods answer at once or with a promise ([synchronous]),
    which only a caller that does not await can tell, and whether [get]
    hands out the very object the store holds, as a store in memory does, or
    a copy of it, as a store that serialises does ([shares_records]). *)
Record ICache := {
  allKeys : option (gmap string WrappedCacheEntry → list string);
  synchronous : bool;
  shares_records : bool
}.

(** The [CacheKeyManifest] object: bound to a client id and, through the
    world below, to its one record. *)
Record CacheKeyManifest := { manifest_clientId : string }.

(** A call issued to the backend or to the manifest. *)
Inductive Call :=
  | CacheGet (key : option string)
  | CacheSet (key : string) (entry : WrappedCacheEntry)
  | CacheRemove (key : string)
  | CacheAllKeys
  | ManifestGet
  | ManifestAdd (key : string)
  | ManifestRemove (key : string)
  | ManifestClear.

(** What the manager acts on: the records of the backend, the record of the
    manifest (absent until the first [add]), the clock [Date.now()] in
    milliseconds, and the calls issued so far, oldest first. *)
Record World := {
  store : gmap string WrappedCacheEntry;
  manifest : option KeyManifestEntry;
  date_now : Z;
  calls : list Call
}.

(** Asynchronous code run to completion: a state transformer on the world. *)
Definition M (A : Type) : Type := World → A * World.

Definition ret {A} (a : A) : M A := fun w => (a, w).

Definition bind {A B} (c : M A) (k : A → M B) : M B :=
  fun w => let (a, w') := c w in k a w'.

Notation "x <- c ;; k" := (bind c (fun x => k))
  (at level 100, c at next level, right associativity).
Notation "c ;; k" := (bind c (fun _ => k))
  (at level 100, right associativity).

Definition record_call (c : Call) (w : World) : World :=
  {| store := store w; manifest := manifest w; date_now := date_now w;
     calls := calls w ++ [c] |}.

(** [Math.floor(Date.now() / 1000)]. *)
Definition nowSeconds : M Z := fun w => (date_now w / 1000, w).

(** Modelled from the spec: [cache.get(key)], record or nothing; an undefined
    key is a miss. *)
Definition cache_get (key : option string) : M (option WrappedCacheEntry) :=
  fun w => (key ≫= fun k => store w !! k, record_call (CacheGet key) w).

(** Modelled from the spec: [cache.set(key, entry)]. *)
Definition cache_set (key : string) (entry : WrappedCacheEntry) : M unit :=
  fun w => (tt, {| store := <[key := entry]> (store w); manifest := manifest w;
                   date_now := date_now w;
                   calls := calls w ++ [CacheSet key entry] |}).

(** Modelled from the spec: [cache.remove(key)]. *)
Definition cache_remove (key : string) : M unit :=
  fun w => (tt, {| store := delete key (store w); manifest := manifest w;
                   date_now := date_now w;
                   calls := calls w ++ [CacheRemove key] |}).

(** Modelled from the spec: a native [cache.allKeys()]. *)
Definition cache_allKeys (enumerate : gmap string WrappedCacheEntry → list string)
  : M (list string) :=
  fun w => (enumerate (store w), record_call CacheAllKeys w).

(** Modelled from the spec: [keyManifest.get()], record or nothing. *)
Definition manifest_get : M (option KeyManifestEntry) :=
  fun w => (manifest w, record_call ManifestGet w).

(** Modelled from the spec: the keys after an idempotent insert. *)
Definition keys_add (key : string) (l : list string) : list string :=
  if bool_decide (key ∈ l) then l else l ++ [key].

(** Modelled from the spec: [keyManifest.add(key)], an idempotent insert
    that creates the record on first use. *)
Definition manifest_add (key : string) : M unit :=
  fun w => (tt, {| store := store w;
                   manifest := Some {| keys := keys_add key (from_option keys [] (manifest w)) |};
                   date_now := date_now w;
                   calls := calls w ++ [ManifestAdd key] |}).

(** Modelled from the spec: [keyManifest.remove(key)], an idempotent
    delete. *)
Definition manifest_remove (key : string) : M unit :=
  fun w => (tt, {| store := store w;
                   manifest := (fun e => {| keys := filter (fun k => k ≠ key) (keys e) |})
                                 <$> manifest w;
                   date_now := date_now w;
                   calls := calls w ++ [ManifestRemove key] |}).

(** Modelled from the spec: [keyManifest.clear()], which deletes the whole
    record. *)
Definition manifest_clear : M unit :=
  fun w => (tt, {| store := store w; manifest := None; date_now := date_now w;
                   calls := calls w ++ [ManifestClear] |}).

(** [keys.forEach(key => f(key))]. *)
Fixpoint forEach {A} (l : list A) (f : A → M unit) : M unit :=
  match l with
  | [] => ret tt
  | x :: l' => f x ;; forEach l' f
  end.

(** ** The cache manager *)

Record CacheManager := {
  cache : ICache;
  keyManifest : option CacheKeyManifest
}.

(** The constructor: a backend without [allKeys] gets a key manifest. *)
Definition new_CacheManager (cache : ICache) (clientId : string) : CacheManager :=
  {| cache := cache;
     keyManifest := match allKeys cache with
                    | None => Some {| manifest_clientId := clientId |}
                    | Some _ => None
                    end |}.

(** [this.keyManifest?.m(...)]. *)
Definition optional_call (km : option CacheKeyManifest) (c : M unit) : M unit :=
  match km with
  | Some _ => c
  | None => ret tt
  end.

(** [getCacheKeys]: [(this.keyManifest.get())?.keys] with a manifest,
    [this.cache.allKeys()] without.  A manager built by the constructor
    has one of the two; the last case is never reached by such a manager. *)
Definition getCacheKeys (this : CacheManager) : M (option (list string)) :=
  match keyManifest this with
  | Some _ => entry <- manifest_get ;; ret (keys <$> entry)
  | None =>
      match allKeys (cache this) with
      | Some enumerate => ks <- cache_allKeys enumerate ;; ret (Some ks)
      | None => ret None
      end
  end.

(** [wrapCacheEntry]. *)
Definition wrapCacheEntry (entry : CacheEntry) : M WrappedCacheEntry :=
  now <- nowSeconds ;;
  let expiresInTime := now + expires_in entry in
  let expirySeconds := Z.min expiresInTime (exp (claims (decodedToken entry))) in
  ret {| body := as_body entry; expiresAt := expirySeconds |}.

(** How a synchronous call ends: it returns, or it throws the [TypeError] of
    calling a method the backend does not have. *)
Inductive Completion (A : Type) : Type :=
  | Returned (a : A)
  | ThrewTypeError.

Arguments Returned {A} a.
Arguments ThrewTypeError {A}.

(** [clearSync]: [this.cache.allKeys()] is called without a test and without
    [await].  A backend without [allKeys] makes the call itself throw; a
    backend whose [allKeys] answers with a promise is called, but the promise
    is truthy and has no [forEach], so [keys.forEach] throws and nothing is
    removed; the key list of a synchronous backend is an array, which is
    truthy, and each key is removed. *)
Definition clearSync (this : CacheManager) : M (Completion unit) :=
  match allKeys (cache this) with
  | None => ret ThrewTypeError
  | Some enumerate =>
      keys <- cache_allKeys enumerate ;;
      if synchronous (cache this) then
        forEach keys cache_remove ;;
        ret (Returned tt)
      else ret ThrewTypeError
  end.

Section Manager.

(** The constant [CACHE_KEY_PREFIX] is declared in [shared.ts]; the manager
    only compares against it, so it is kept abstract. *)
Variable CACHE_KEY_PREFIX : string.

(** [new CacheKey({client_id, scope, audience})], the prefix defaulting to
    the constant. *)
Definition new_CacheKey (client_id scope audience : string) : CacheKey :=
  {| key_prefix := CACHE_KEY_PREFIX;
     key_client_id := client_id;
     key_audience := audience;
     key_scope := scope |}.

(** ** Matching *)

(** [new Set(cacheKey.scope && cacheKey.scope.split(' '))]: a falsy scope
    ([undefined] or the empty string) gives the empty set. *)
Definition scopeSet (cacheKey : ParsedCacheKey) : gset string :=
  match parsed_scope cacheKey with
  | Some s => if truthy (Some s) then list_to_set (split " " s) else ∅
  | None => ∅
  end.

(** [cacheKey.scope && scopesToMatch.reduce((acc, current) => acc &&
    scopeSet.has(current), true)], as a truth value. *)
Definition hasAllScopes (keyToMatch : CacheKey) (cacheKey : ParsedCacheKey) : bool :=
  let scopesToMatch := split " " (key_scope keyToMatch) in
  truthy (parsed_scope cacheKey) &&
  fold_left (fun acc current => acc && bool_decide (current ∈ scopeSet cacheKey))
            scopesToMatch true.

(** The callback of [allKeys.filter] in [matchExistingCacheKey]. *)
Definition matches (keyToMatch : CacheKey) (key : string) : bool :=
  let cacheKey := fromKey key in
  bool_decide (parsed_prefix cacheKey = Some CACHE_KEY_PREFIX) &&
  bool_decide (parsed_client_id cacheKey = Some (key_client_id keyToMatch)) &&
  bool_decide (parsed_audience cacheKey = Some (key_audience keyToMatch)) &&
  hasAllScopes keyToMatch cacheKey.

(** [matchExistingCacheKey]: [allKeys.filter(...)[0]]. *)
Definition matchExistingCacheKey (keyToMatch : CacheKey) (allKeys : list string)
  : option string :=
  head (filter (fun key => matches keyToMatch key = true) allKeys).

(** ** Operations *)

(** The assignment [wrappedEntry.body = ...] on the object [cache.get]
    returned.  It is no call to the backend; a backend that hands out the
    object it stores holds the assigned object under the key the object was
    found under, a backend that hands out copies holds what it held.  This
    is the manager's only write on a stored object, and an object comes to
    sit under a second key (by the [cache.set] that follows) only once it is
    narrowed, where the assignment changes nothing more: so the store can
    hold a value under each key. *)
Definition assign_body (this : CacheManager) (foundKey : string)
    (wrappedEntry : WrappedCacheEntry) : M unit :=
  fun w =>
    (tt, if shares_records (cache this)
         then {| store := <[foundKey := wrappedEntry]> (store w);
                 manifest := manifest w; date_now := date_now w;
                 calls := calls w |}
         else w).

(** The end of [get], from the expiry test on, for an entry that was found
    under [foundKey]. *)
Definition get_found (this : CacheManager) (cacheKey : CacheKey)
    (expiryAdjustmentSeconds : Z) (foundKey : string)
    (wrappedEntry : WrappedCacheEntry)
  : M (option PartialCacheEntry) :=
  now <- nowSeconds ;;
  if expiresAt wrappedEntry - expiryAdjustmentSeconds <? now then
    if truthy (body_refresh_token (body wrappedEntry)) then
      let wrappedEntry :=
        {| body := refresh_only (body_refresh_token (body wrappedEntry));
           expiresAt := expiresAt wrappedEntry |} in
      assign_body this foundKey wrappedEntry ;;
      cache_set (toKey cacheKey) wrappedEntry ;;
      ret (Some (body wrappedEntry))
    else
      cache_remove (toKey cacheKey) ;;
      optional_call (keyManifest this) (manifest_remove (toKey cacheKey)) ;;
      ret None
  else ret (Some (body wrappedEntry)).

(** [get].  The test [if (!wrappedEntry) return] after the lookups is the
    pair of [None] cases; logging is left out.  An entry comes with the key
    it was fetched by: the requested key, or the matched key (an undefined
    matched key fetches nothing). *)
Definition get (this : CacheManager) (cacheKey : CacheKey)
    (expiryAdjustmentSeconds : Z) : M (option PartialCacheEntry) :=
  wrappedEntry <- cache_get (Some (toKey cacheKey)) ;;
  match wrappedEntry with
  | Some wrappedEntry =>
      get_found this cacheKey expiryAdjustmentSeconds (toKey cacheKey) wrappedEntry
  | None =>
      keys <- getCacheKeys this ;;
      match keys with
      | None => ret None
      | Some keys =>
          let matchedKey := matchExistingCacheKey cacheKey keys in
          wrappedEntry <- cache_get matchedKey ;;
          match matchedKey, wrappedEntry with
          | Some matchedKey, Some wrappedEntry =>
              get_found this cacheKey expiryAdjustmentSeconds matchedKey wrappedEntry
          | _, _ => ret None
          end
      end
  end.

(** [DEFAULT_EXPIRY_ADJUSTMENT_SECONDS], the adjustment of a [get] that
    passes none. *)
Definition DEFAULT_EXPIRY_ADJUSTMENT_SECONDS : Z := 0.

(** [set]. *)
Definition set (this : CacheManager) (entry : CacheEntry) : M unit :=
  let cacheKey := new_CacheKey (client_id entry) (scope entry) (audience entry) in
  wrappedEntry <- wrapCacheEntry entry ;;
  cache_set (toKey cacheKey) wrappedEntry ;;
  optional_call (keyManifest this) (manifest_add (toKey cacheKey)).

(** [clear]. *)
Definition clear (this : CacheManager) : M unit :=
  keys <- getCacheKeys this ;;
  match keys with
  | None => ret tt
  | Some keys =>
      forEach keys cache_remove ;;
      optional_call (keyManifest this) manifest_clear
  end.

(** ** What a lookup finds, and what a call does *)

(** The lookup at the start of [get] finds the entry [wrappedEntry], stored
    under [key]: either under the requested key itself, or, when that
    misses, under the key chosen by [matchExistingCacheKey]. *)
Inductive finds (this : CacheManager) (cacheKey : CacheKey) (w : World)
  : string → WrappedCacheEntry → Prop :=
  | finds_exact wrappedEntry :
      store w !! toKey cacheKey = Some wrappedEntry →
      finds this cacheKey w (toKey cacheKey) wrappedEntry
  | finds_matched enumerated matchedKey wrappedEntry :
      store w !! toKey cacheKey = None →
      fst (getCacheKeys this w) = Some enumerated →
      matchExistingCacheKey cacheKey enumerated = Some matchedKey →
      store w !! matchedKey = Some wrappedEntry →
      finds this cacheKey w matchedKey wrappedEntry.

(** The keys the manifest lists. *)
Definition tracked (w : World) : list string := from_option keys [] (manifest w).

(** A call that changes the backend or the manifest. *)
Definition is_mutation (c : Call) : bool :=
  match c with
  | CacheSet _ _ | CacheRemove _
  | ManifestAdd _ | ManifestRemove _ | ManifestClear => true
  | CacheGet _ | CacheAllKeys | ManifestGet => false
  end.

(** The calls issued by running [c] from [w]. *)
Definition issued {A} (c : M A) (w : World) : list Call :=
  drop (length (calls w)) (calls (snd (c w))).

(** The call by which a manager enumerates keys. *)
Definition enumeration_calls (this : CacheManager) : list Call :=
  match keyManifest this with
  | Some _ => [ManifestGet]
  | None => match allKeys (cache this) with
            | Some _ => [CacheAllKeys]
            | None => []
            end
  end.

(** The world [w] when the clock reads [t] milliseconds. *)
Definition at_time (w : World) (t : Z) : World :=
  {| store := store w; manifest := manifest w; date_now := t; calls := calls w |}.

(** The world [w] with other calls on record. *)
Definition with_calls (w : World) (cs : list Call) : World :=
  {| store := store w; manifest := manifest w; date_now := date_now w;
     calls := cs |}.

(** A call to the manifest. *)
Definition uses_manifest (c : Call) : bool :=
  match c with
  | ManifestGet | ManifestAdd _ | ManifestRemove _ | ManifestClear => true
  | CacheGet _ | CacheSet _ _ | CacheRemove _ | CacheAllKeys => false
  end.

(** The calls open to a manager: those of every backend, the manifest's when
    it has a manifest, and the native enumeration when it has none. *)
Definition permitted (this : CacheManager) (c : Call) : bool :=
  match c with
  | CacheGet _ | CacheSet _ _ | CacheRemove _ => true
  | CacheAllKeys =>
      match keyManifest this with Some _ => false | None => true end
  | ManifestGet | ManifestAdd _ | ManifestRemove _ | ManifestClear =>
      match keyManifest this with Some _ => true | None => false end
  end.

(** The manifest lists only keys the backend holds. *)
Definition manifest_sound (w : World) : Prop :=
  ∀ k, k ∈ tracked w → is_Some (store w !! k).

(** The manifest lists every key the backend holds. *)
Definition manifest_complete (w : World) : Prop :=
  ∀ k, is_Some (store w !! k) → k ∈ tracked w.

(** ** The matching rule, in words *)

(** The space-delimited tokens of a scope. *)
Definition scope_tokens (scope : string) : list string := split " " scope.

(** The rule as the specification words it: equal prefix, client and
    audience, and candidate tokens that include every requested token (a
    scope segment that is missing reads as the empty string). *)
Definition selects_as_specified (keyToMatch : CacheKey) (key : string) : Prop :=
  let cacheKey := fromKey key in
  parsed_prefix cacheKey = Some CACHE_KEY_PREFIX ∧
  parsed_client_id cacheKey = Some (key_client_id keyToMatch) ∧
  parsed_audience cacheKey = Some (key_audience keyToMatch) ∧
  scope_tokens (key_scope keyToMatch)
    ⊆ scope_tokens (default EmptyString (parsed_scope cacheKey)).

(** The rule with the guard of the code: the candidate's scope is, moreover,
    present and not empty. *)
Definition selects (keyToMatch : CacheKey) (key : string) : Prop :=
  let cacheKey := fromKey key in
  parsed_prefix cacheKey = Some CACHE_KEY_PREFIX ∧
  parsed_client_id cacheKey = Some (key_client_id keyToMatch) ∧
  parsed_audience cacheKey = Some (key_audience keyToMatch) ∧
  truthy (parsed_scope cacheKey) = true ∧
  scope_tokens (key_scope keyToMatch)
    ⊆ scope_tokens (default EmptyString (parsed_scope cacheKey)).

(** ** The three ends of [get] *)

(** The entry [get] writes back on the refresh path. *)
Definition narrowed (wrappedEntry : WrappedCacheEntry) : WrappedCacheEntry :=
  {| body := refresh_only (body_refresh_token (body wrappedEntry));
     expiresAt := expiresAt wrappedEntry |}.

(** The records after the assignment of the narrowed body to the entry found
    under [foundKey]. *)
Definition assigned (this : CacheManager) (foundKey : string)
    (wrappedEntry : WrappedCacheEntry) (m : gmap string WrappedCacheEntry)
  : gmap string WrappedCacheEntry :=
  if shares_records (cache this) then <[foundKey := narrowed wrappedEntry]> m else m.

(** The manifest record after [keyManifest?.remove(key)]. *)
Definition manifest_without (this : CacheManager) (key : string) (w : World)
  : option KeyManifestEntry :=
  match keyManifest this with
  | Some _ => (fun e => {| keys := filter (fun k => k ≠ key) (keys e) |}) <$> manifest w
  | None => manifest w
  end.

(** The calls of the purge path. *)
Definition purge_calls (this : CacheManager) (key : string) : list Call :=
  CacheRemove key ::
  match keyManifest this with
  | Some _ => [ManifestRemove key]
  | None => []
  end.

(** ** Two statements of the expiry paths, as worded *)

(** The purge, said of the key the entry was stored under: [get] returns
    nothing, the backend no longer holds that key and an active manifest no
    longer lists it. *)
Definition purge_as_stated (this : CacheManager) (cacheKey : CacheKey) (adj : Z)
    (w : World) : Prop :=
  ∀ key wrappedEntry,
    finds this cacheKey w key wrappedEntry →
    expiresAt wrappedEntry - adj < date_now w / 1000 →
    body_refresh_token (body wrappedEntry) = None →
    fst (get this cacheKey adj w) = None ∧
    store (snd (get this cacheKey adj w)) !! key = None ∧
    (is_Some (keyManifest this) → key ∉ tracked (snd (get this cacheKey adj w))).

(** The refresh, said of every body that carries a [refresh_token] field:
    [get] returns the body with that field only and the record under the
    requested key is overwritten with it. *)
Definition refresh_as_stated (this : CacheManager) (cacheKey : CacheKey) (adj : Z)
    (w : World) : Prop :=
  ∀ key wrappedEntry r,
    finds this cacheKey w key wrappedEntry →
    expiresAt wrappedEntry - adj < date_now w / 1000 →
    body_refresh_token (body wrappedEntry) = Some r →
    fst (get this cacheKey adj w) = Some (refresh_only (Some r)) ∧
    store (snd (get this cacheKey adj w)) !! toKey cacheKey
      = Some {| body := refresh_only (Some r); expiresAt := expiresAt wrappedEntry |}.

(** The frame of the expiry paths after a match, as worded: the narrowed
    record goes under the requested key and the record under the matched key
    is unchanged; after a purge the record under the matched key is still
    there. *)
Definition targets_as_stated (this : CacheManager) (cacheKey : CacheKey) (adj : Z)
    (w : World) : Prop :=
  ∀ ks matchedKey wrappedEntry,
    store w !! toKey cacheKey = None →
    fst (getCacheKeys this w) = Some ks →
    matchExistingCacheKey cacheKey ks = Some matchedKey →
    store w !! matchedKey = Some wrappedEntry →
    expiresAt wrappedEntry - adj < date_now w / 1000 →
    (truthy (body_refresh_token (body wrappedEntry)) = true →
       store (snd (get this cacheKey adj w)) !! toKey cacheKey
         = Some (narrowed wrappedEntry) ∧
       store (snd (get this cacheKey adj w)) !! matchedKey = Some wrappedEntry) ∧
    (truthy (body_refresh_token (body wrappedEntry)) = false →
       store (snd (get this cacheKey adj w)) !! matchedKey = Some wrappedEntry).

(** The matching rule as worded, said of the filter of the code. *)
Definition matching_as_stated (keyToMatch : CacheKey) (key : string) : Prop :=
  matches keyToMatch key = true ↔ selects_as_specified keyToMatch key.

(** ** Sample worlds *)

Definition sample_prefix : string := "@@auth0spajs@@".

(** An entry for client [c1], audience [aud1] and scope [read write]. *)
Definition sample_entry (refresh : option string) : CacheEntry :=
  {| client_id := "c1"; scope := "read write"; audience := "aud1";
     access_token := "at1"; expires_in := 100;
     decodedToken := {| claims := {| exp := 5000 |} |};
     refresh_token := refresh |}.

(** That entry as stored, expiring at second 1100. *)
Definition sample_stored (refresh : option string) : WrappedCacheEntry :=
  {| body := as_body (sample_entry refresh); expiresAt := 1100 |}.

Definition stored_key : string := "@@auth0spajs@@::c1::aud1::read write".

(** A second key of the same client and audience, with a wider scope. *)
Definition wider_key : string := "@@auth0spajs@@::c1::aud1::read write admin".

(** A key whose scope segment is empty. *)
Definition scopeless_key : string := "@@auth0spajs@@::c1::aud1::".

(** A request of client [c1] for audience [aud1]. *)
Definition request (scope : string) : CacheKey :=
  {| key_prefix := sample_prefix; key_client_id := "c1";
     key_audience := "aud1"; key_scope := scope |}.

(** A world holding the sample entry under [stored_key], listed by the
    manifest, at [now] milliseconds. *)
Definition sample_world (refresh : option string) (now : Z) : World :=
  {| store := {[ stored_key := sample_stored refresh ]};
     manifest := Some {| keys := [stored_key] |};
     date_now := now;
     calls := [] |}.

(** A world whose manifest lists a key the backend has lost. *)
Definition stale_world : World :=
  {| store := ∅;
     manifest := Some {| keys := [stored_key] |};
     date_now := 1000999;
     calls := [] |}.

(** A manager over a backend without [allKeys]. *)
Definition manifest_manager : CacheManager :=
  new_CacheManager
    {| allKeys := None; synchronous := true; shares_records := false |} "c1".

(** A manager over a backend that lists the keys it holds. *)
Definition native_manager : CacheManager :=
  new_CacheManager
    {| allKeys := Some (fun m => elements (dom m)); synchronous := true;
       shares_records := false |} "c1".

(** A manager over a store in memory: it lists its keys, answers at once and
    hands out the objects it holds. *)
Definition memory_manager : CacheManager :=
  new_CacheManager
    {| allKeys := Some (fun m => elements (dom m)); synchronous := true;
       shares_records := true |} "c1".

(** A manager over a backend that lists its keys with a promise. *)
Definition promise_manager : CacheManager :=
  new_CacheManager
    {| allKeys := Some (fun m => elements (dom m)); synchronous := false;
       shares_records := false |} "c1".

(** * Properties *)

(** ** Worlds *)

Lemma drop_calls (l cs : list Call) : drop (length l) (l ++ cs) = cs.
Proof. by rewrite drop_app_length. Qed.

(** ** Key enumeration *)

Lemma getCacheKeys_world (this : CacheManager) (w : World) :
  snd (getCacheKeys this w) = with_calls w (calls w ++ enumeration_calls this).
Proof.
  unfold getCacheKeys, enumeration_calls, with_calls.
  destruct (keyManifest this); [done|].
  destruct (allKeys (cache this)); [done|].
  cbn. rewrite app_nil_r. by destruct w.
Qed.

Lemma getCacheKeys_calls (this : CacheManager) (w : World) (cs : list Call) :
  fst (getCacheKeys this (with_calls w cs)) = fst (getCacheKeys this w).
Proof.
  unfold getCacheKeys.
  destruct (keyManifest this); [done|].
  by destruct (allKeys (cache this)).
Qed.

(** ** Matching *)

Lemma fold_left_andb {A} (f : A → bool) (l : list A) (b : bool) :
  fold_left (fun acc current => acc && f current) l b = b && forallb f l.
Proof.
  revert b. induction l as [|x l IH]; intros b; cbn.
  - by rewrite andb_true_r.
  - by rewrite IH, andb_assoc.
Qed.

Lemma hasAllScopes_true (keyToMatch : CacheKey) (cacheKey : ParsedCacheKey) :
  hasAllScopes keyToMatch cacheKey = true ↔
    truthy (parsed_scope cacheKey) = true ∧
    scope_tokens (key_scope keyToMatch)
      ⊆ scope_tokens (default EmptyString (parsed_scope cacheKey)).
Proof.
  unfold hasAllScopes, scopeSet, scope_tokens.
  rewrite fold_left_andb, andb_true_iff. cbn [andb].
  destruct (parsed_scope cacheKey) as [s|]; cbn [default];
    [|cbn; intuition discriminate].
  destruct (truthy (Some s)) eqn:Hs; [|intuition discriminate].
  rewrite forallb_forall.
  split; intros [_ H]; (split; [done|]).
  - intros t Ht. apply list_elem_of_In, H in Ht.
    apply bool_decide_eq_true in Ht. by apply elem_of_list_to_set in Ht.
  - intros t Ht. apply bool_decide_eq_true, elem_of_list_to_set, H.
    by apply list_elem_of_In.
Qed.

Lemma matches_selects (keyToMatch : CacheKey) (key : string) :
  matches keyToMatch key = true ↔ selects keyToMatch key.
Proof.
  unfold matches, selects. cbv zeta.
  rewrite !andb_true_iff, !bool_decide_eq_true, hasAllScopes_true.
  tauto.
Qed.

Lemma matchExistingCacheKey_first (keyToMatch : CacheKey) (pre post : list string)
    (key : string) :
  matches keyToMatch key = true →
  Forall (fun k => matches keyToMatch k = false) pre →
  matchExistingCacheKey keyToMatch (pre ++ key :: post) = Some key.
Proof.
  intros Hkey Hpre. unfold matchExistingCacheKey.
  induction Hpre as [|k pre Hk _ IH]; cbn.
  - by rewrite decide_True.
  - rewrite decide_False; [done|]. by rewrite Hk.
Qed.

Lemma matchExistingCacheKey_None (keyToMatch : CacheKey) (allKeys : list string) :
  matchExistingCacheKey keyToMatch allKeys = None ↔
    Forall (fun k => matches keyToMatch k = false) allKeys.
Proof.
  unfold matchExistingCacheKey. rewrite head_None.
  induction allKeys as [|k l IH]; cbn.
  - by split.
  - rewrite Forall_cons. destruct (matches keyToMatch k) eqn:Hk.
    + rewrite decide_True by done. split; [done|]. by intros [? _].
    + rewrite decide_False by done. rewrite IH. tauto.
Qed.

Lemma matchExistingCacheKey_Some (keyToMatch : CacheKey) (allKeys : list string)
    (key : string) :
  matchExistingCacheKey keyToMatch allKeys = Some key →
  ∃ pre post, allKeys = pre ++ key :: post ∧
    matches keyToMatch key = true ∧
    Forall (fun k => matches keyToMatch k = false) pre.
Proof.
  unfold matchExistingCacheKey.
  induction allKeys as [|k l IH]; cbn; [done|].
  destruct (matches keyToMatch k) eqn:Hk.
  - rewrite decide_True by done. cbn. intros [= <-].
    by exists [], l.
  - rewrite decide_False by done. intros H.
    destruct (IH H) as (pre & post & -> & ? & ?).
    exists (k :: pre), post. repeat split; [done|]. by constructor.
Qed.

(** ** The ends of [get] *)

Lemma get_found_fresh (this : CacheManager) (cacheKey : CacheKey) (adj : Z)
    (foundKey : string) (wrappedEntry : WrappedCacheEntry) (w : World) :
  date_now w / 1000 ≤ expiresAt wrappedEntry - adj →
  get_found this cacheKey adj foundKey wrappedEntry w
  = (Some (body wrappedEntry), w).
Proof.
  intros H. unfold get_found, bind, nowSeconds.
  by rewrite (proj2 (Z.ltb_ge _ _) H).
Qed.

Lemma get_found_refresh (this : CacheManager) (cacheKey : CacheKey) (adj : Z)
    (foundKey : string) (wrappedEntry : WrappedCacheEntry) (w : World) :
  expiresAt wrappedEntry - adj < date_now w / 1000 →
  truthy (body_refresh_token (body wrappedEntry)) = true →
  get_found this cacheKey adj foundKey wrappedEntry w =
    (Some (refresh_only (body_refresh_token (body wrappedEntry))),
     {| store := <[toKey cacheKey := narrowed wrappedEntry]>
                   (assigned this foundKey wrappedEntry (store w));
        manifest := manifest w;
        date_now := date_now w;
        calls := calls w ++ [CacheSet (toKey cacheKey) (narrowed wrappedEntry)] |}).
Proof.
  intros H Hr. unfold get_found, bind, nowSeconds, assign_body, assigned.
  rewrite (proj2 (Z.ltb_lt _ _) H), Hr.
  by destruct (shares_records (cache this)).
Qed.

Lemma get_found_purge (this : CacheManager) (cacheKey : CacheKey) (adj : Z)
    (foundKey : string) (wrappedEntry : WrappedCacheEntry) (w : World) :
  expiresAt wrappedEntry - adj < date_now w / 1000 →
  truthy (body_refresh_token (body wrappedEntry)) = false →
  get_found this cacheKey adj foundKey wrappedEntry w =
    (None,
     {| store := delete (toKey cacheKey) (store w);
        manifest := manifest_without this (toKey cacheKey) w;
        date_now := date_now w;
        calls := calls w ++ purge_calls this (toKey cacheKey) |}).
Proof.
  intros H Hr. unfold get_found, bind, nowSeconds, manifest_without, purge_calls.
  rewrite (proj2 (Z.ltb_lt _ _) H), Hr.
  destruct (keyManifest this); cbn; [|done].
  by rewrite <- app_assoc.
Qed.

(** The lookup of [get] only reads: it hands the entry it finds to the
    expiry test in a world that differs by the calls on record. *)
Lemma get_finds (this : CacheManager) (cacheKey : CacheKey) (adj : Z)
    (w : World) (key : string) (wrappedEntry : WrappedCacheEntry) :
  finds this cacheKey w key wrappedEntry →
  ∃ cs, Forall (fun c => is_mutation c = false) cs ∧
    get this cacheKey adj w =
      get_found this cacheKey adj key wrappedEntry (with_calls w (calls w ++ cs)).
Proof.
  intros [we Hwe | ks matchedKey we Hmiss Hkeys Hmatch Hwe].
  - exists [CacheGet (Some (toKey cacheKey))]. split; [by repeat constructor|].
    unfold get, bind, cache_get. cbn. by rewrite Hwe.
  - exists (CacheGet (Some (toKey cacheKey)) :: enumeration_calls this
            ++ [CacheGet (Some matchedKey)]).
    split.
    { constructor; [done|]. apply Forall_app. split; [|by repeat constructor].
      unfold enumeration_calls.
      destruct (keyManifest this); [by repeat constructor|].
      destruct (allKeys (cache this)); by repeat constructor. }
    unfold get, bind, cache_get. cbn. rewrite Hmiss.
    pose proof (getCacheKeys_world this (record_call (CacheGet (Some (toKey cacheKey))) w)) as Hw.
    pose proof (getCacheKeys_calls this w (calls w ++ [CacheGet (Some (toKey cacheKey))])) as Hk.
    change (with_calls w (calls w ++ [CacheGet (Some (toKey cacheKey))]))
      with (record_call (CacheGet (Some (toKey cacheKey))) w) in Hk.
    destruct (getCacheKeys this (record_call (CacheGet (Some (toKey cacheKey))) w))
      as [ks' w1]. cbn in Hw, Hk. subst w1. rewrite Hk, Hkeys, Hmatch. cbn.
    rewrite Hwe. unfold with_calls, record_call. cbn.
    by rewrite <- !app_assoc.
Qed.

Lemma finds_exact_key (this : CacheManager) (cacheKey : CacheKey) (w : World)
    (key : string) (wrappedEntry : WrappedCacheEntry) :
  finds this cacheKey w key wrappedEntry →
  is_Some (store w !! toKey cacheKey) →
  key = toKey cacheKey.
Proof.
  intros [we Hwe | ks matchedKey we Hmiss _ _ _] [x Hx]; [done|congruence].
Qed.

Lemma truthy_Some (r : string) : truthy (Some r) = true ↔ r ≠ EmptyString.
Proof. destruct r; cbn; split; congruence. Qed.

(** ** The expiry paths of [get] *)

(** The purge on an exact hit: when the exact lookup finds an entry whose
    adjusted expiry is in the past and whose body has no [refresh_token],
    [get] returns nothing, and afterwards the backend does not hold the key
    the entry was stored under and an active manifest does not list it. *)
Lemma get_purges_exact_hit (this : CacheManager) (cacheKey : CacheKey)
    (adj : Z) (w : World) (wrappedEntry : WrappedCacheEntry) :
  store w !! toKey cacheKey = Some wrappedEntry →
  expiresAt wrappedEntry - adj < date_now w / 1000 →
  body_refresh_token (body wrappedEntry) = None →
  fst (get this cacheKey adj w) = None ∧
  store (snd (get this cacheKey adj w)) !! toKey cacheKey = None ∧
  (is_Some (keyManifest this) →
     toKey cacheKey ∉ tracked (snd (get this cacheKey adj w))).
Proof.
  intros Hhit Hexp Hr.
  destruct (get_finds this cacheKey adj w (toKey cacheKey) wrappedEntry)
    as (cs & _ & ->); [by constructor|].
  rewrite get_found_purge; [|done|by rewrite Hr]. cbn.
  repeat split.
  - apply lookup_delete_eq.
  - intros [km Hkm]. unfold tracked, manifest_without. cbn. rewrite Hkm.
    destruct (manifest w) as [e|]; cbn; [|apply not_elem_of_nil].
    rewrite list_elem_of_filter. by intros [? _].
Qed.

(** C2, as amended: when [get] finds an entry whose adjusted expiry is in
    the past and whose body carries a non-empty [refresh_token], it returns
    a body holding that [refresh_token] only, and the backend's record under
    the requested key is overwritten with a wrapped entry whose body holds
    that [refresh_token] only. *)
Theorem get_narrows_to_refresh_token (this : CacheManager) (cacheKey : CacheKey)
    (adj : Z) (w : World) (key : string) (wrappedEntry : WrappedCacheEntry)
    (r : string) :
  finds this cacheKey w key wrappedEntry →
  expiresAt wrappedEntry - adj < date_now w / 1000 →
  body_refresh_token (body wrappedEntry) = Some r →
  r ≠ EmptyString →
  fst (get this cacheKey adj w) = Some (refresh_only (Some r)) ∧
  store (snd (get this cacheKey adj w)) !! toKey cacheKey
    = Some {| body := refresh_only (Some r); expiresAt := expiresAt wrappedEntry |}.
Proof.
  intros Hfinds Hexp Hr Hne.
  destruct (get_finds this cacheKey adj w key wrappedEntry Hfinds) as (cs & _ & ->).
  rewrite get_found_refresh; [|done|by rewrite Hr; apply truthy_Some].
  cbn. rewrite Hr. split; [done|].
  rewrite lookup_insert_eq. unfold narrowed. by rewrite Hr.
Qed.

(** C9: the expiry test is strict.  For an entry that [get] finds, a write or
    a removal is issued exactly when the adjusted expiry is strictly before
    the current whole second; an entry whose adjusted expiry equals the
    current second is returned with its body as stored, only reads are
    issued, and neither the backend nor the manifest changes. *)
Theorem get_expiry_test_strict (this : CacheManager) (cacheKey : CacheKey)
    (adj : Z) (w : World) (key : string) (wrappedEntry : WrappedCacheEntry) :
  finds this cacheKey w key wrappedEntry →
  (expiresAt wrappedEntry - adj < date_now w / 1000 ↔
     Exists (fun c => is_mutation c = true) (issued (get this cacheKey adj) w)) ∧
  (expiresAt wrappedEntry - adj = date_now w / 1000 →
     fst (get this cacheKey adj w) = Some (body wrappedEntry) ∧
     store (snd (get this cacheKey adj w)) = store w ∧
     manifest (snd (get this cacheKey adj w)) = manifest w ∧
     Forall (fun c => is_mutation c = false) (issued (get this cacheKey adj) w)).
Proof.
  intros Hfinds. unfold issued.
  destruct (get_finds this cacheKey adj w key wrappedEntry Hfinds) as (cs & Hcs & ->).
  assert (Hreads : ¬ Exists (fun c => is_mutation c = true) cs).
  { rewrite <- Forall_Exists_neg. eapply Forall_impl; [exact Hcs|].
    cbn. intros c ->. done. }
  split.
  - destruct (Z_lt_le_dec (expiresAt wrappedEntry - adj) (date_now w / 1000))
      as [Hlt|Hge].
    + split; [intros _|done].
      destruct (truthy (body_refresh_token (body wrappedEntry))) eqn:Hr.
      * rewrite get_found_refresh by done. cbn.
        rewrite <- app_assoc, drop_calls. apply Exists_app. right. by left.
      * rewrite get_found_purge by done. cbn.
        rewrite <- app_assoc, drop_calls. apply Exists_app. right. by left.
    + rewrite get_found_fresh by done. cbn. rewrite drop_calls.
      split; [lia|done].
  - intros Heq. rewrite get_found_fresh by (cbn; lia). cbn.
    by rewrite drop_calls.
Qed.

(** C10, as amended: when the exact lookup misses and the entry is found
    under a matched key, the calls of the expiry paths go to the requested
    key.  After the refresh narrowing the narrowed record sits under the
    requested key; the record under the matched key is as before on a
    backend that hands out copies of its records, and is narrowed as well on
    a backend that hands out the object it stores, since the body is
    assigned on the object the lookup returned.  After the purge the record
    under the matched key is still there.  The only changing calls issued
    are the write, or the removals, for the requested key. *)
Theorem get_expiry_targets_requested_key (this : CacheManager)
    (cacheKey : CacheKey) (adj : Z) (w : World) (ks : list string)
    (matchedKey : string) (wrappedEntry : WrappedCacheEntry) :
  store w !! toKey cacheKey = None →
  fst (getCacheKeys this w) = Some ks →
  matchExistingCacheKey cacheKey ks = Some matchedKey →
  store w !! matchedKey = Some wrappedEntry →
  expiresAt wrappedEntry - adj < date_now w / 1000 →
  (truthy (body_refresh_token (body wrappedEntry)) = true →
     store (snd (get this cacheKey adj w)) !! toKey cacheKey
       = Some (narrowed wrappedEntry) ∧
     store (snd (get this cacheKey adj w)) !! matchedKey
       = Some (if shares_records (cache this)
               then narrowed wrappedEntry
               else wrappedEntry) ∧
     filter (fun c => is_mutation c = true) (issued (get this cacheKey adj) w)
       = [CacheSet (toKey cacheKey) (narrowed wrappedEntry)]) ∧
  (truthy (body_refresh_token (body wrappedEntry)) = false →
     store (snd (get this cacheKey adj w)) !! matchedKey = Some wrappedEntry ∧
     filter (fun c => is_mutation c = true) (issued (get this cacheKey adj) w)
       = purge_calls this (toKey cacheKey)).
Proof.
  intros Hmiss Hkeys Hmatch Hwe Hexp.
  assert (Hfinds : finds this cacheKey w matchedKey wrappedEntry)
    by (by eapply finds_matched).
  assert (Hne : toKey cacheKey ≠ matchedKey) by congruence.
  unfold issued.
  destruct (get_finds this cacheKey adj w _ _ Hfinds) as (cs & Hcs & ->).
  assert (Hreads : filter (fun c => is_mutation c = true) cs = []).
  { clear -Hcs. induction Hcs as [|c cs Hc _ IH]; [done|].
    rewrite filter_cons_False; [done|]. by rewrite Hc. }
  split; intros Hr.
  - rewrite get_found_refresh by done. cbn.
    rewrite lookup_insert_eq, lookup_insert_ne by done.
    rewrite <- app_assoc, drop_calls, filter_app, Hreads.
    split; [done|]. split; [|done].
    unfold assigned. destruct (shares_records (cache this)); [|done].
    apply lookup_insert_eq.
  - rewrite get_found_purge by done. cbn.
    rewrite lookup_delete_ne by done.
    rewrite <- app_assoc, drop_calls, filter_app, Hreads.
    split; [done|]. unfold purge_calls. by destruct (keyManifest this).
Qed.

(** ** The matching rule *)

(** C3, as amended: among the enumerated keys, the filter of the matching
    algorithm keeps a key exactly when its parsed prefix is the constant
    prefix, its parsed client_id and audience are the requested ones, its
    parsed scope is present and not empty, and the space-delimited tokens of
    its scope include every space-delimited token of the requested scope.
    So a stored scope [a b c] matches a request for [a b] and not one for
    [a d], and a key with another audience or client_id never matches. *)
Theorem matching_rule (keyToMatch : CacheKey) (allKeys : list string)
    (key : string) :
  (key ∈ filter (fun k => matches keyToMatch k = true) allKeys ↔
     key ∈ allKeys ∧ selects keyToMatch key) ∧
  (parsed_prefix (fromKey key) = Some CACHE_KEY_PREFIX →
   parsed_client_id (fromKey key) = Some (key_client_id keyToMatch) →
   parsed_audience (fromKey key) = Some (key_audience keyToMatch) →
   parsed_scope (fromKey key) = Some "a b c" →
     (key_scope keyToMatch = "a b" → matches keyToMatch key = true) ∧
     (key_scope keyToMatch = "a d" → matches keyToMatch key = false)) ∧
  (parsed_audience (fromKey key) ≠ Some (key_audience keyToMatch) ∨
   parsed_client_id (fromKey key) ≠ Some (key_client_id keyToMatch) →
     matches keyToMatch key = false).
Proof.
  split; [|split].
  - by rewrite list_elem_of_filter, matches_selects, (comm and).
  - intros Hp Hc Ha Hs. unfold matches, hasAllScopes, scopeSet. cbv zeta.
    rewrite Hp, Hc, Ha, Hs, !bool_decide_eq_true_2 by done.
    split; intros ->; vm_compute; reflexivity.
  - intros H. unfold matches. cbv zeta.
    destruct H as [H|H]; rewrite (bool_decide_eq_false_2 _ H);
      by rewrite ?andb_false_r.
Qed.

(** C6: the matching algorithm returns a key exactly when that key satisfies
    the predicate and no key before it in the enumeration does, whatever
    follows it: the first satisfying key in enumeration order wins. *)
Theorem matchExistingCacheKey_first_in_order (keyToMatch : CacheKey)
    (ks : list string) (key : string) :
  matchExistingCacheKey keyToMatch ks = Some key ↔
    ∃ pre post, ks = pre ++ key :: post ∧
      matches keyToMatch key = true ∧
      Forall (fun k => matches keyToMatch k = false) pre.
Proof.
  split.
  - apply matchExistingCacheKey_Some.
  - intros (pre & post & -> & Hkey & Hpre).
    by apply matchExistingCacheKey_first.
Qed.

(** ** Misses *)

(** C4: [get] returns nothing on every miss.  When the exact lookup misses
    and the enumeration yields nothing, or no enumerated key satisfies the
    matching predicate, or the matched key resolves to no record, the result
    is absent, and neither the backend nor the manifest changes. *)
Theorem get_miss_returns_nothing (this : CacheManager) (cacheKey : CacheKey)
    (adj : Z) (w : World) :
  store w !! toKey cacheKey = None →
  fst (getCacheKeys this w) = None ∨
  (∃ ks, fst (getCacheKeys this w) = Some ks ∧
         Forall (fun k => matches cacheKey k = false) ks) ∨
  (∃ ks matchedKey, fst (getCacheKeys this w) = Some ks ∧
         matchExistingCacheKey cacheKey ks = Some matchedKey ∧
         store w !! matchedKey = None) →
  fst (get this cacheKey adj w) = None ∧
  store (snd (get this cacheKey adj w)) = store w ∧
  manifest (snd (get this cacheKey adj w)) = manifest w.
Proof.
  intros Hmiss Hcases.
  unfold get, bind, cache_get. cbn. rewrite Hmiss.
  pose proof (getCacheKeys_world this (record_call (CacheGet (Some (toKey cacheKey))) w)) as Hw.
  pose proof (getCacheKeys_calls this w (calls w ++ [CacheGet (Some (toKey cacheKey))])) as Hk.
  change (with_calls w (calls w ++ [CacheGet (Some (toKey cacheKey))]))
    with (record_call (CacheGet (Some (toKey cacheKey))) w) in Hk.
  destruct (getCacheKeys this (record_call (CacheGet (Some (toKey cacheKey))) w))
    as [ks' w1]. cbn in Hw, Hk. subst w1 ks'.
  destruct Hcases as [-> | [(ks & -> & Hnone) | (ks & matchedKey & -> & -> & Hgone)]].
  - done.
  - apply matchExistingCacheKey_None in Hnone. by rewrite Hnone.
  - cbn. by rewrite Hgone.
Qed.

(** ** Writing *)

(** C5: the entry [set] persists under the derived key has the given entry
    as its body and, as [expiresAt], the minimum of the current whole second
    plus [expires_in] and the token's [exp] claim; so it exceeds neither. *)
Theorem set_expiry_is_minimum (this : CacheManager) (entry : CacheEntry)
    (w : World) :
  ∃ wrappedEntry,
    fst (wrapCacheEntry entry w) = wrappedEntry ∧
    store (snd (set this entry w))
      !! toKey (new_CacheKey (client_id entry) (scope entry) (audience entry))
      = Some wrappedEntry ∧
    body wrappedEntry = as_body entry ∧
    expiresAt wrappedEntry
      = Z.min (date_now w / 1000 + expires_in entry)
              (exp (claims (decodedToken entry))) ∧
    expiresAt wrappedEntry ≤ date_now w / 1000 + expires_in entry ∧
    expiresAt wrappedEntry ≤ exp (claims (decodedToken entry)).
Proof.
  eexists. split; [reflexivity|].
  unfold set, wrapCacheEntry, bind, nowSeconds, optional_call. cbn.
  split.
  - destruct (keyManifest this); cbn; apply lookup_insert_eq.
  - repeat split; lia.
Qed.

Lemma keys_add_elem (key k : string) (l : list string) :
  k ∈ keys_add key l ↔ k ∈ l ∨ k = key.
Proof.
  unfold keys_add. case_bool_decide as Hin.
  - split; [by left|]. by intros [?| ->].
  - rewrite elem_of_app, list_elem_of_singleton. tauto.
Qed.

Lemma keys_add_NoDup (key : string) (l : list string) :
  NoDup l → NoDup (keys_add key l).
Proof.
  intros Hl. unfold keys_add. case_bool_decide as Hin; [done|].
  apply NoDup_app. split; [done|]. split; [|apply NoDup_singleton].
  intros x Hx ->%list_elem_of_singleton. done.
Qed.

(** C7: with a backend without [allKeys], [set] persists the wrapped entry
    under the key derived from the entry and then registers that key with
    the manifest.  The keys the manifest lists afterwards are those listed
    before together with the derived key: the list is unchanged when the key
    was listed already, and one key longer otherwise. *)
Theorem set_registers_key (cache : ICache) (clientId : string)
    (entry : CacheEntry) (w : World) :
  allKeys cache = None →
  let this := new_CacheManager cache clientId in
  let key := toKey (new_CacheKey (client_id entry) (scope entry) (audience entry)) in
  let w' := snd (set this entry w) in
  store w' !! key = Some (fst (wrapCacheEntry entry w)) ∧
  issued (set this entry) w
    = [CacheSet key (fst (wrapCacheEntry entry w)); ManifestAdd key] ∧
  (∀ k, k ∈ tracked w' ↔ k ∈ tracked w ∨ k = key) ∧
  (key ∈ tracked w → tracked w' = tracked w) ∧
  (key ∉ tracked w →
     tracked w' = tracked w ++ [key] ∧
     length (tracked w') = S (length (tracked w))) ∧
  (NoDup (tracked w) → NoDup (tracked w')).
Proof.
  intros Hnative this key w'.
  subst w' this. unfold set, new_CacheManager, issued, tracked.
  rewrite Hnative.
  unfold wrapCacheEntry, bind, nowSeconds, optional_call. cbn.
  fold key.
  split; [apply lookup_insert_eq|].
  split; [by rewrite <- app_assoc, drop_calls|].
  split; [intros k; apply keys_add_elem|].
  split; [|split].
  - intros Hin. unfold keys_add. by rewrite bool_decide_eq_true_2.
  - intros Hin. unfold keys_add. rewrite bool_decide_eq_false_2 by done.
    split; [done|]. rewrite length_app. cbn. lia.
  - apply keys_add_NoDup.
Qed.

(** ** Clearing *)

Lemma forEach_remove (ks : list string) (w : World) :
  forEach ks cache_remove w =
    (tt, {| store := fold_left (fun m k => delete k m) ks (store w);
            manifest := manifest w;
            date_now := date_now w;
            calls := calls w ++ (CacheRemove <$> ks) |}).
Proof.
  revert w. induction ks as [|k ks IH]; intros w; cbn.
  - rewrite app_nil_r. by destruct w.
  - unfold bind. cbn. rewrite IH. cbn. by rewrite <- app_assoc.
Qed.

Lemma fold_delete_gone (ks : list string) (m : gmap string WrappedCacheEntry)
    (k : string) :
  m !! k = None → fold_left (fun m k => delete k m) ks m !! k = None.
Proof.
  revert m. induction ks as [|k' ks IH]; intros m Hk; cbn; [done|].
  apply IH. rewrite lookup_delete. by case_decide.
Qed.

Lemma fold_delete_elem (ks : list string) (m : gmap string WrappedCacheEntry)
    (k : string) :
  k ∈ ks → fold_left (fun m k => delete k m) ks m !! k = None.
Proof.
  revert m. induction ks as [|k' ks IH]; intros m Hk; cbn.
  - by apply elem_of_nil in Hk.
  - apply elem_of_cons in Hk as [->|Hk].
    + apply fold_delete_gone, lookup_delete_eq.
    + by apply IH.
Qed.

(** C8: from every world, [clear] issues a removal to the backend for each
    enumerated key, in enumeration order, and then clears the manifest when
    there is one; run to completion, the backend holds none of the
    enumerated keys and the record of an active manifest is gone.  When the
    enumeration yields nothing (a manifest without a record), [clear] issues
    nothing more: there is no key to remove and no record to clear. *)
Theorem clear_removes_enumerated_keys (this : CacheManager) (w : World) :
  (∀ ks, fst (getCacheKeys this w) = Some ks →
     (∀ k, k ∈ ks → store (snd (clear this w)) !! k = None) ∧
     issued (clear this) w
       = enumeration_calls this ++ (CacheRemove <$> ks)
           ++ match keyManifest this with
              | Some _ => [ManifestClear]
              | None => []
              end) ∧
  (fst (getCacheKeys this w) = None →
     issued (clear this) w = enumeration_calls this ∧
     store (snd (clear this w)) = store w) ∧
  (is_Some (keyManifest this) → manifest (snd (clear this w)) = None).
Proof.
  split; [|split].
  - unfold clear, bind, issued.
    pose proof (getCacheKeys_world this w) as Hw.
    destruct (getCacheKeys this w) as [keys w1]. cbn in Hw. subst w1. cbn [fst].
    intros ks ->. rewrite forEach_remove. unfold optional_call.
    destruct (keyManifest this); cbn.
    + split; [intros k Hk; by apply fold_delete_elem|].
      by rewrite <- !app_assoc, drop_calls.
    + split; [intros k Hk; by apply fold_delete_elem|].
      by rewrite app_nil_r, <- !app_assoc, drop_calls.
  - unfold clear, bind, issued.
    pose proof (getCacheKeys_world this w) as Hw.
    destruct (getCacheKeys this w) as [keys w1]. cbn in Hw. subst w1. cbn [fst].
    intros ->. cbn. by rewrite drop_calls.
  - intros [km Hkm]. unfold clear, getCacheKeys, bind, manifest_get.
    rewrite Hkm. cbn.
    destruct (manifest w) as [e|] eqn:He; cbn.
    + by rewrite forEach_remove.
    + done.
Qed.

(** ** Reading back what was written *)

(** An entry handed to [set] is what a [get] for the key derived from it
    returns at any time [t] afterwards at which the expiry [set] computed,
    less the adjustment, is not before the current second; once that second
    is past, the [get] returns the entry's non-empty refresh token alone, or
    nothing. *)
Theorem get_after_set (this : CacheManager) (entry : CacheEntry) (adj : Z)
    (w : World) (t : Z) :
  fst (get this (new_CacheKey (client_id entry) (scope entry) (audience entry))
         adj (at_time (snd (set this entry w)) t))
    = if Z.min (date_now w / 1000 + expires_in entry)
               (exp (claims (decodedToken entry))) - adj <? t / 1000
      then if truthy (refresh_token entry)
           then Some (refresh_only (refresh_token entry))
           else None
      else Some (as_body entry).
Proof.
  set (cacheKey := new_CacheKey (client_id entry) (scope entry) (audience entry)).
  set (wrappedEntry := fst (wrapCacheEntry entry w)).
  assert (Hstored : store (at_time (snd (set this entry w)) t) !! toKey cacheKey
                    = Some wrappedEntry).
  { unfold set, wrapCacheEntry, bind, nowSeconds, optional_call. cbn.
    destruct (keyManifest this); cbn; apply lookup_insert_eq. }
  destruct (get_finds this cacheKey adj (at_time (snd (set this entry w)) t)
              (toKey cacheKey) wrappedEntry) as (cs & _ & ->);
    [by apply finds_exact|].
  destruct (Z.ltb_spec
              (Z.min (date_now w / 1000 + expires_in entry)
                     (exp (claims (decodedToken entry))) - adj) (t / 1000))
    as [Hexp|Hfresh].
  - destruct (truthy (refresh_token entry)) eqn:Hr.
    + by rewrite get_found_refresh.
    + by rewrite get_found_purge.
  - by rewrite get_found_fresh.
Qed.

(** An entry found under a matched key and not yet expired is returned with
    its body as stored. *)
Theorem get_returns_matched_entry (this : CacheManager) (cacheKey : CacheKey)
    (adj : Z) (w : World) (ks : list string) (matchedKey : string)
    (wrappedEntry : WrappedCacheEntry) :
  store w !! toKey cacheKey = None →
  fst (getCacheKeys this w) = Some ks →
  matchExistingCacheKey cacheKey ks = Some matchedKey →
  store w !! matchedKey = Some wrappedEntry →
  date_now w / 1000 ≤ expiresAt wrappedEntry - adj →
  fst (get this cacheKey adj w) = Some (body wrappedEntry) ∧
  store (snd (get this cacheKey adj w)) = store w ∧
  manifest (snd (get this cacheKey adj w)) = manifest w.
Proof.
  intros Hmiss Hkeys Hmatch Hwe Hfresh.
  destruct (get_finds this cacheKey adj w matchedKey wrappedEntry)
    as (cs & _ & ->); [by eapply finds_matched|].
  by rewrite get_found_fresh.
Qed.

(** ** The outcomes of the operations *)

Lemma fold_delete_notin (ks : list string) (m : gmap string WrappedCacheEntry)
    (k : string) :
  k ∉ ks → fold_left (fun m k => delete k m) ks m !! k = m !! k.
Proof.
  revert m. induction ks as [|k' ks IH]; intros m Hk; cbn; [done|].
  apply not_elem_of_cons in Hk as [Hne Hk].
  rewrite IH by done. by rewrite lookup_delete_ne.
Qed.

Lemma finds_stored (this : CacheManager) (cacheKey : CacheKey) (w : World)
    (key : string) (wrappedEntry : WrappedCacheEntry) :
  finds this cacheKey w key wrappedEntry → store w !! key = Some wrappedEntry.
Proof. by intros [we Hwe | ks matchedKey we _ _ _ Hwe]. Qed.

Lemma assigned_lookup_ne (this : CacheManager) (foundKey k : string)
    (wrappedEntry : WrappedCacheEntry) (m : gmap string WrappedCacheEntry) :
  k ≠ foundKey → assigned this foundKey wrappedEntry m !! k = m !! k.
Proof.
  intros Hne. unfold assigned.
  destruct (shares_records (cache this)); [|done]. by rewrite lookup_insert_ne.
Qed.

Lemma assigned_is_Some (this : CacheManager) (foundKey k : string)
    (wrappedEntry : WrappedCacheEntry) (m : gmap string WrappedCacheEntry) :
  m !! foundKey = Some wrappedEntry →
  is_Some (assigned this foundKey wrappedEntry m !! k) ↔ is_Some (m !! k).
Proof.
  intros Hfound. unfold assigned.
  destruct (shares_records (cache this)); [|done].
  rewrite lookup_insert_is_Some. split.
  - intros [<-|[_ ?]]; [by eexists|done].
  - intros Hk. destruct (decide (foundKey = k)); [by left|by right].
Qed.

Lemma assigned_expiresAt (this : CacheManager) (foundKey k : string)
    (wrappedEntry : WrappedCacheEntry) (m : gmap string WrappedCacheEntry) :
  m !! foundKey = Some wrappedEntry →
  expiresAt <$> assigned this foundKey wrappedEntry m !! k = expiresAt <$> m !! k.
Proof.
  intros Hfound. unfold assigned.
  destruct (shares_records (cache this)); [|done].
  destruct (decide (foundKey = k)) as [<-|Hne].
  - by rewrite lookup_insert_eq, Hfound.
  - by rewrite lookup_insert_ne.
Qed.

(** [get] ends in one of four ways, after lookups that only read. *)
Lemma get_outcome (this : CacheManager) (cacheKey : CacheKey) (adj : Z)
    (w : World) :
  ∃ cs,
    Forall (fun c => is_mutation c = false ∧ permitted this c = true) cs ∧
    ((∃ key wrappedEntry,
        finds this cacheKey w key wrappedEntry ∧
        date_now w / 1000 ≤ expiresAt wrappedEntry - adj ∧
        get this cacheKey adj w
          = (Some (body wrappedEntry), with_calls w (calls w ++ cs))) ∨
     (∃ key wrappedEntry,
        finds this cacheKey w key wrappedEntry ∧
        expiresAt wrappedEntry - adj < date_now w / 1000 ∧
        truthy (body_refresh_token (body wrappedEntry)) = true ∧
        get this cacheKey adj w
          = (Some (refresh_only (body_refresh_token (body wrappedEntry))),
             {| store := <[toKey cacheKey := narrowed wrappedEntry]>
                           (assigned this key wrappedEntry (store w));
                manifest := manifest w;
                date_now := date_now w;
                calls := calls w ++ cs
                  ++ [CacheSet (toKey cacheKey) (narrowed wrappedEntry)] |})) ∨
     (∃ key wrappedEntry,
        finds this cacheKey w key wrappedEntry ∧
        expiresAt wrappedEntry - adj < date_now w / 1000 ∧
        truthy (body_refresh_token (body wrappedEntry)) = false ∧
        get this cacheKey adj w
          = (None,
             {| store := delete (toKey cacheKey) (store w);
                manifest := manifest_without this (toKey cacheKey) w;
                date_now := date_now w;
                calls := calls w ++ cs ++ purge_calls this (toKey cacheKey) |})) ∨
     ((∀ key wrappedEntry, ¬ finds this cacheKey w key wrappedEntry) ∧
      get this cacheKey adj w = (None, with_calls w (calls w ++ cs)))).
Proof.
  assert (Henum : Forall (fun c => is_mutation c = false ∧ permitted this c = true)
                    (enumeration_calls this)).
  { unfold enumeration_calls.
    destruct (keyManifest this) eqn:Hkm; [|destruct (allKeys (cache this))];
      repeat constructor; unfold permitted; by rewrite ?Hkm. }
  assert (Hfound : ∀ key we cs,
    finds this cacheKey w key we →
    get this cacheKey adj w
      = get_found this cacheKey adj key we (with_calls w (calls w ++ cs)) →
    (∃ key wrappedEntry,
        finds this cacheKey w key wrappedEntry ∧
        date_now w / 1000 ≤ expiresAt wrappedEntry - adj ∧
        get this cacheKey adj w
          = (Some (body wrappedEntry), with_calls w (calls w ++ cs))) ∨
     (∃ key wrappedEntry,
        finds this cacheKey w key wrappedEntry ∧
        expiresAt wrappedEntry - adj < date_now w / 1000 ∧
        truthy (body_refresh_token (body wrappedEntry)) = true ∧
        get this cacheKey adj w
          = (Some (refresh_only (body_refresh_token (body wrappedEntry))),
             {| store := <[toKey cacheKey := narrowed wrappedEntry]>
                           (assigned this key wrappedEntry (store w));
                manifest := manifest w;
                date_now := date_now w;
                calls := calls w ++ cs
                  ++ [CacheSet (toKey cacheKey) (narrowed wrappedEntry)] |})) ∨
     (∃ key wrappedEntry,
        finds this cacheKey w key wrappedEntry ∧
        expiresAt wrappedEntry - adj < date_now w / 1000 ∧
        truthy (body_refresh_token (body wrappedEntry)) = false ∧
        get this cacheKey adj w
          = (None,
             {| store := delete (toKey cacheKey) (store w);
                manifest := manifest_without this (toKey cacheKey) w;
                date_now := date_now w;
                calls := calls w ++ cs ++ purge_calls this (toKey cacheKey) |})) ∨
     ((∀ key wrappedEntry, ¬ finds this cacheKey w key wrappedEntry) ∧
      get this cacheKey adj w = (None, with_calls w (calls w ++ cs)))).
  { intros key we cs Hfinds ->.
    destruct (Z_lt_le_dec (expiresAt we - adj) (date_now w / 1000)) as [Hlt|Hge].
    - destruct (truthy (body_refresh_token (body we))) eqn:Hr.
      + right; left. exists key, we. repeat split; try done.
        rewrite get_found_refresh by done. cbn. by rewrite <- app_assoc.
      + right; right; left. exists key, we. repeat split; try done.
        rewrite get_found_purge by done. cbn. by rewrite <- app_assoc.
    - left. exists key, we. repeat split; try done.
      by rewrite get_found_fresh. }
  destruct (store w !! toKey cacheKey) as [we|] eqn:Hexact.
  { exists [CacheGet (Some (toKey cacheKey))]. split; [by repeat constructor|].
    apply (Hfound (toKey cacheKey) we); [by constructor|].
    unfold get, bind, cache_get. cbn. by rewrite Hexact. }
  pose proof (getCacheKeys_world this (record_call (CacheGet (Some (toKey cacheKey))) w)) as Hw.
  pose proof (getCacheKeys_calls this w (calls w ++ [CacheGet (Some (toKey cacheKey))])) as Hk.
  change (with_calls w (calls w ++ [CacheGet (Some (toKey cacheKey))]))
    with (record_call (CacheGet (Some (toKey cacheKey))) w) in Hk.
  assert (Hget : get this cacheKey adj w
    = match fst (getCacheKeys this w) with
      | None => (None, with_calls w (calls w ++ CacheGet (Some (toKey cacheKey))
                                       :: enumeration_calls this))
      | Some ks =>
          match matchExistingCacheKey cacheKey ks with
          | Some mk =>
              match store w !! mk with
              | Some we =>
                  get_found this cacheKey adj mk we
                    (with_calls w (calls w ++ CacheGet (Some (toKey cacheKey))
                                     :: enumeration_calls this
                                     ++ [CacheGet (Some mk)]))
              | None =>
                  (None, with_calls w (calls w ++ CacheGet (Some (toKey cacheKey))
                                         :: enumeration_calls this
                                         ++ [CacheGet (Some mk)]))
              end
          | None =>
              (None, with_calls w (calls w ++ CacheGet (Some (toKey cacheKey))
                                     :: enumeration_calls this
                                     ++ [CacheGet None]))
          end
      end).
  { unfold get, bind, cache_get. cbn. rewrite Hexact.
    destruct (getCacheKeys this (record_call (CacheGet (Some (toKey cacheKey))) w))
      as [ks' w1]. cbn in Hw, Hk. subst w1 ks'.
    destruct (fst (getCacheKeys this w)) as [ks|]; cbn.
    - unfold with_calls, record_call. cbn.
      destruct (matchExistingCacheKey cacheKey ks) as [mk|]; cbn;
        [destruct (store w !! mk)|]; by rewrite <- !app_assoc.
    - unfold with_calls, record_call. cbn. by rewrite <- !app_assoc. }
  destruct (fst (getCacheKeys this w)) as [ks|] eqn:Hkeys.
  - destruct (matchExistingCacheKey cacheKey ks) as [mk|] eqn:Hmatch.
    + exists (CacheGet (Some (toKey cacheKey)) :: enumeration_calls this
              ++ [CacheGet (Some mk)]).
      split.
      { constructor; [done|]. apply Forall_app. split; [done|by repeat constructor]. }
      destruct (store w !! mk) as [we|] eqn:Hmk.
      * apply (Hfound mk we); [by eapply finds_matched|done].
      * right; right; right. split; [|done].
        intros key we Hfinds. inversion Hfinds; simplify_eq.
    + exists (CacheGet (Some (toKey cacheKey)) :: enumeration_calls this
              ++ [CacheGet None]).
      split.
      { constructor; [done|]. apply Forall_app. split; [done|by repeat constructor]. }
      right; right; right. split; [|done].
      intros key we Hfinds. inversion Hfinds; simplify_eq.
  - exists (CacheGet (Some (toKey cacheKey)) :: enumeration_calls this).
    split; [by constructor|].
    right; right; right. split; [|done].
    intros key we Hfinds. inversion Hfinds; simplify_eq.
Qed.

(** The world [set] leaves. *)
Lemma set_world (this : CacheManager) (entry : CacheEntry) (w : World) :
  snd (set this entry w)
  = {| store := <[toKey (new_CacheKey (client_id entry) (scope entry) (audience entry))
                  := fst (wrapCacheEntry entry w)]> (store w);
       manifest := match keyManifest this with
                   | Some _ =>
                       Some {| keys := keys_add
                                 (toKey (new_CacheKey (client_id entry) (scope entry)
                                           (audience entry)))
                                 (tracked w) |}
                   | None => manifest w
                   end;
       date_now := date_now w;
       calls := calls w
         ++ CacheSet (toKey (new_CacheKey (client_id entry) (scope entry)
                               (audience entry)))
              (fst (wrapCacheEntry entry w))
            :: match keyManifest this with
               | Some _ =>
                   [ManifestAdd (toKey (new_CacheKey (client_id entry) (scope entry)
                                          (audience entry)))]
               | None => []
               end |}.
Proof.
  unfold set, wrapCacheEntry, bind, nowSeconds, optional_call, tracked. cbn.
  destruct (keyManifest this); cbn; [|done].
  by rewrite <- app_assoc.
Qed.

(** The world [clear] leaves. *)
Lemma clear_world (this : CacheManager) (w : World) :
  snd (clear this w)
  = match fst (getCacheKeys this w) with
    | Some ks =>
        {| store := fold_left (fun m k => delete k m) ks (store w);
           manifest := match keyManifest this with
                       | Some _ => None
                       | None => manifest w
                       end;
           date_now := date_now w;
           calls := calls w ++ enumeration_calls this ++ (CacheRemove <$> ks)
             ++ match keyManifest this with
                | Some _ => [ManifestClear]
                | None => []
                end |}
    | None => with_calls w (calls w ++ enumeration_calls this)
    end.
Proof.
  unfold clear, bind.
  pose proof (getCacheKeys_world this w) as Hw.
  destruct (getCacheKeys this w) as [keys w1]. cbn in Hw. subst w1. cbn [fst].
  destruct keys as [ks|]; [|done].
  rewrite forEach_remove. unfold optional_call.
  destruct (keyManifest this); cbn.
  - by rewrite <- !app_assoc.
  - by rewrite app_nil_r, <- !app_assoc.
Qed.

Lemma enumeration_calls_permitted (this : CacheManager) :
  Forall (fun c => permitted this c = true) (enumeration_calls this).
Proof.
  unfold enumeration_calls.
  destruct (keyManifest this) eqn:Hkm; [|destruct (allKeys (cache this))];
    repeat constructor; unfold permitted; by rewrite ?Hkm.
Qed.

Lemma getCacheKeys_manifest (this : CacheManager) (w : World) :
  is_Some (keyManifest this) → fst (getCacheKeys this w) = keys <$> manifest w.
Proof. intros [km Hkm]. unfold getCacheKeys. by rewrite Hkm. Qed.

Lemma tracked_manifest_without (this : CacheManager) (key k : string) (w : World) :
  k ∈ from_option keys [] (manifest_without this key w) → k ∈ tracked w.
Proof.
  unfold manifest_without, tracked.
  destruct (keyManifest this); [|done].
  destruct (manifest w) as [e|]; cbn; [|done].
  rewrite list_elem_of_filter. by intros [_ ?].
Qed.

Lemma tracked_manifest_without_ne (this : CacheManager) (key k : string)
    (w : World) :
  k ≠ key →
  k ∈ tracked w → k ∈ from_option keys [] (manifest_without this key w).
Proof.
  intros Hne. unfold manifest_without, tracked.
  destruct (keyManifest this); [|done].
  destruct (manifest w) as [e|]; cbn; [|done].
  rewrite list_elem_of_filter. by intros ?.
Qed.

Lemma keys_add_idem (key : string) (l : list string) :
  keys_add key (keys_add key l) = keys_add key l.
Proof.
  unfold keys_add at 1. rewrite bool_decide_eq_true_2; [done|].
  apply keys_add_elem. by right.
Qed.

(** ** [clearSync] *)

(** Over a backend without [allKeys], [clearSync] throws before it issues a
    call and the world is as before.  Over a backend whose [allKeys] answers
    with a promise it throws after that one call, and no record is removed.
    Over a synchronous backend with [allKeys] it returns and leaves the very
    world [clear] leaves, calls included. *)
Theorem clearSync_outcome (cache : ICache) (clientId : string) (w : World) :
  match allKeys cache with
  | None => clearSync (new_CacheManager cache clientId) w = (ThrewTypeError, w)
  | Some _ =>
      if synchronous cache
      then clearSync (new_CacheManager cache clientId) w
           = (Returned tt, snd (clear (new_CacheManager cache clientId) w))
      else clearSync (new_CacheManager cache clientId) w
           = (ThrewTypeError, with_calls w (calls w ++ [CacheAllKeys]))
  end.
Proof.
  destruct (allKeys cache) as [enumerate|] eqn:Hnative.
  - unfold clearSync, clear, getCacheKeys, new_CacheManager, bind, cache_allKeys.
    cbn. rewrite Hnative. cbn.
    destruct (synchronous cache); [by rewrite !forEach_remove|done].
  - unfold clearSync, new_CacheManager. cbn. by rewrite Hnative.
Qed.

(** ** Frames *)

Lemma finds_functional (this : CacheManager) (cacheKey : CacheKey) (w : World)
    (key key' : string) (wrappedEntry wrappedEntry' : WrappedCacheEntry) :
  finds this cacheKey w key wrappedEntry →
  finds this cacheKey w key' wrappedEntry' →
  key = key' ∧ wrappedEntry = wrappedEntry'.
Proof.
  intros [we Hwe | ks mk we Hmiss Hkeys Hmatch Hwe]
         [we' Hwe' | ks' mk' we' Hmiss' Hkeys' Hmatch' Hwe']; simplify_eq; done.
Qed.

(** [get] and the records under the other keys.  A key other than the
    requested one keeps its record exactly, on a backend that hands out
    copies and whenever the entry was not found under that key; the record
    under the key the entry was found under is narrowed when the backend
    hands out the object it stores and the refresh path is taken, and is as
    before otherwise.  In every case such a key keeps a record if it had one,
    with the same expiry; no other key is listed or unlisted, and the clock
    does not move. *)
Theorem get_leaves_other_records (this : CacheManager)
    (cacheKey : CacheKey) (adj : Z) (w : World) (k : string) :
  k ≠ toKey cacheKey →
  (shares_records (cache this) = false ∨
   (∀ wrappedEntry, ¬ finds this cacheKey w k wrappedEntry) →
     store (snd (get this cacheKey adj w)) !! k = store w !! k) ∧
  (∀ wrappedEntry, finds this cacheKey w k wrappedEntry →
     store (snd (get this cacheKey adj w)) !! k
     = Some (if shares_records (cache this)
                && (expiresAt wrappedEntry - adj <? date_now w / 1000)
                && truthy (body_refresh_token (body wrappedEntry))
             then narrowed wrappedEntry
             else wrappedEntry)) ∧
  expiresAt <$> store (snd (get this cacheKey adj w)) !! k
    = expiresAt <$> store w !! k ∧
  (k ∈ tracked (snd (get this cacheKey adj w)) ↔ k ∈ tracked w) ∧
  date_now (snd (get this cacheKey adj w)) = date_now w.
Proof.
  intros Hne.
  destruct (get_outcome this cacheKey adj w)
    as (cs & _ & [(key & we & Hf & Hfresh & ->) | [(key & we & Hf & Hexp & Hr & ->)
       | [(key & we & Hf & Hexp & Hr & ->) | [Hnone ->]]]]); cbn.
  - repeat split; try done.
    intros we' Hf'. destruct (finds_functional _ _ _ _ _ _ _ Hf Hf') as [<- <-].
    rewrite (finds_stored _ _ _ _ _ Hf).
    by rewrite (proj2 (Z.ltb_ge _ _) Hfresh), andb_false_r.
  - rewrite lookup_insert_ne by done. repeat split; try done.
    + intros [Hcopy|Hnot].
      * unfold assigned. by rewrite Hcopy.
      * apply assigned_lookup_ne. intros ->. by eapply Hnot.
    + intros we' Hf'. destruct (finds_functional _ _ _ _ _ _ _ Hf Hf') as [<- <-].
      rewrite (proj2 (Z.ltb_lt _ _) Hexp), Hr, !andb_true_r.
      unfold assigned. destruct (shares_records (cache this)).
      * apply lookup_insert_eq.
      * by apply finds_stored in Hf.
    + apply assigned_expiresAt. by apply finds_stored in Hf.
  - rewrite lookup_delete_ne by done. repeat split; try done.
    + intros we' Hf'. destruct (finds_functional _ _ _ _ _ _ _ Hf Hf') as [<- <-].
      rewrite (finds_stored _ _ _ _ _ Hf). by rewrite Hr, andb_false_r.
    + unfold tracked at 1. cbn. apply tracked_manifest_without.
    + unfold tracked at 1. cbn. by apply tracked_manifest_without_ne.
  - repeat split; try done. intros we Hf. by destruct (Hnone k we).
Qed.

(** [set] leaves every record but the one under the derived key as it was,
    neither lists nor unlists any other key, and does not move the clock. *)
Theorem set_touches_derived_key_only (this : CacheManager) (entry : CacheEntry)
    (w : World) (k : string) :
  k ≠ toKey (new_CacheKey (client_id entry) (scope entry) (audience entry)) →
  store (snd (set this entry w)) !! k = store w !! k ∧
  (k ∈ tracked (snd (set this entry w)) ↔ k ∈ tracked w) ∧
  date_now (snd (set this entry w)) = date_now w.
Proof.
  intros Hne. rewrite set_world. cbn.
  rewrite lookup_insert_ne by done. split; [done|]. split; [|done].
  unfold tracked at 1. cbn.
  destruct (keyManifest this); cbn; [|done].
  rewrite keys_add_elem. split; [by intros [?|?]|by left].
Qed.

(** [clear] leaves in place every record whose key the enumeration did not
    yield. *)
Theorem clear_keeps_other_keys (this : CacheManager) (w : World) (k : string) :
  (∀ ks, fst (getCacheKeys this w) = Some ks → k ∉ ks) →
  store (snd (clear this w)) !! k = store w !! k.
Proof.
  intros Hk. rewrite clear_world.
  destruct (fst (getCacheKeys this w)) as [ks|]; cbn; [|done].
  apply fold_delete_notin. by apply Hk.
Qed.

(** ** What [get] hands out *)

(** Whatever [get] returns is the stored body of an entry it found and that
    has not expired, or else the body narrowed to the non-empty refresh
    token of an expired entry it found: nothing else of an expired entry is
    handed out. *)
Theorem get_result_is_fresh_or_refresh_only (this : CacheManager)
    (cacheKey : CacheKey) (adj : Z) (w : World) (b : PartialCacheEntry) :
  fst (get this cacheKey adj w) = Some b →
  ∃ key wrappedEntry,
    finds this cacheKey w key wrappedEntry ∧
    ((date_now w / 1000 ≤ expiresAt wrappedEntry - adj ∧ b = body wrappedEntry) ∨
     (expiresAt wrappedEntry - adj < date_now w / 1000 ∧
      truthy (body_refresh_token (body wrappedEntry)) = true ∧
      b = refresh_only (body_refresh_token (body wrappedEntry)) ∧
      body_access_token b = None)).
Proof.
  destruct (get_outcome this cacheKey adj w)
    as (cs & _ & [(key & we & Hf & Hfresh & ->) | [(key & we & Hf & Hexp & Hr & ->)
       | [(key & we & _ & _ & _ & ->) | [_ ->]]]]); cbn; intros [= <-] || intros [=].
  - exists key, we. split; [done|]. by left.
  - exists key, we. split; [done|]. right. by repeat split.
Qed.

(** A second [get] after one that narrowed an entry to its refresh token
    returns the same body and leaves the backend and the manifest as the
    first one left them. *)
Theorem get_refresh_settles (this : CacheManager) (cacheKey : CacheKey) (adj : Z)
    (w : World) (key : string) (wrappedEntry : WrappedCacheEntry) :
  finds this cacheKey w key wrappedEntry →
  expiresAt wrappedEntry - adj < date_now w / 1000 →
  truthy (body_refresh_token (body wrappedEntry)) = true →
  fst (get this cacheKey adj (snd (get this cacheKey adj w)))
    = fst (get this cacheKey adj w) ∧
  store (snd (get this cacheKey adj (snd (get this cacheKey adj w))))
    = store (snd (get this cacheKey adj w)) ∧
  manifest (snd (get this cacheKey adj (snd (get this cacheKey adj w))))
    = manifest (snd (get this cacheKey adj w)).
Proof.
  intros Hfinds Hexp Hr.
  destruct (get_finds this cacheKey adj w key wrappedEntry Hfinds) as (cs & _ & ->).
  rewrite get_found_refresh by done. cbn [fst snd].
  match goal with |- context [get this cacheKey adj ?w1] => set (w1' := w1) end.
  assert (Hfinds1 : finds this cacheKey w1' (toKey cacheKey) (narrowed wrappedEntry)).
  { constructor. subst w1'. cbn. apply lookup_insert_eq. }
  destruct (get_finds this cacheKey adj w1' _ _ Hfinds1) as (cs1 & _ & ->).
  rewrite get_found_refresh by done. subst w1'. cbn.
  split; [done|]. split; [|done].
  unfold assigned at 1. destruct (shares_records (cache this));
    by rewrite !insert_insert_eq.
Qed.

(** A fresh hit stays a hit under every smaller expiry adjustment. *)
Theorem get_smaller_adjustment (this : CacheManager) (cacheKey : CacheKey)
    (adj adj' : Z) (w : World) (key : string) (wrappedEntry : WrappedCacheEntry) :
  finds this cacheKey w key wrappedEntry →
  date_now w / 1000 ≤ expiresAt wrappedEntry - adj →
  adj' ≤ adj →
  fst (get this cacheKey adj' w) = Some (body wrappedEntry) ∧
  fst (get this cacheKey adj' w) = fst (get this cacheKey adj w).
Proof.
  intros Hfinds Hfresh Hle.
  destruct (get_finds this cacheKey adj w key wrappedEntry Hfinds) as (cs & _ & ->).
  destruct (get_finds this cacheKey adj' w key wrappedEntry Hfinds) as (cs' & _ & ->).
  rewrite !get_found_fresh; [done|done|cbn; lia].
Qed.

(** ** The manifest and the backend *)

(** With a manifest, [get], [set] and [clear] keep the manifest sound: it
    goes on listing only keys the backend holds. *)
Theorem operations_keep_manifest_sound (this : CacheManager)
    (cacheKey : CacheKey) (adj : Z) (entry : CacheEntry) (w : World) :
  is_Some (keyManifest this) →
  manifest_sound w →
  manifest_sound (snd (get this cacheKey adj w)) ∧
  manifest_sound (snd (set this entry w)) ∧
  manifest_sound (snd (clear this w)).
Proof.
  intros [km Hkm] Hsound. split; [|split].
  - destruct (get_outcome this cacheKey adj w)
      as (cs & _ & [(key & we & _ & _ & ->) | [(key & we & Hf & _ & _ & ->)
         | [(key & we & _ & _ & _ & ->) | [_ ->]]]]); cbn.
    + exact Hsound.
    + intros k Hk. cbn. rewrite lookup_insert_is_Some.
      destruct (decide (toKey cacheKey = k)); [by left|right].
      split; [done|].
      apply assigned_is_Some; [by eapply finds_stored|]. by apply Hsound.
    + intros k Hk. unfold tracked in Hk. cbn in Hk.
      assert (k ≠ toKey cacheKey) as Hne.
      { unfold manifest_without in Hk. rewrite Hkm in Hk.
        destruct (manifest w); cbn in Hk; [|by apply elem_of_nil in Hk].
        apply list_elem_of_filter in Hk. by destruct Hk. }
      cbn. rewrite lookup_delete_ne by done.
      by eapply Hsound, tracked_manifest_without.
    + exact Hsound.
  - rewrite set_world, Hkm. intros k Hk. unfold tracked in Hk. cbn in Hk.
    cbn. rewrite lookup_insert_is_Some.
    apply keys_add_elem in Hk as [Hk| ->]; [|by left].
    destruct (decide (toKey (new_CacheKey (client_id entry) (scope entry)
                               (audience entry)) = k)); [by left|right].
    split; [done|]. by apply Hsound.
  - rewrite clear_world, Hkm.
    destruct (fst (getCacheKeys this w)); [|exact Hsound].
    intros k Hk. unfold tracked in Hk. cbn in Hk. by apply elem_of_nil in Hk.
Qed.

Lemma get_issued_permitted (this : CacheManager) (cacheKey : CacheKey) (adj : Z)
    (w : World) :
  Forall (fun c => permitted this c = true) (issued (get this cacheKey adj) w).
Proof.
  unfold issued.
  destruct (get_outcome this cacheKey adj w)
    as (cs & Hcs & [(key & we & _ & _ & ->) | [(key & we & _ & _ & _ & ->)
       | [(key & we & _ & _ & _ & ->) | [_ ->]]]]); cbn;
    rewrite drop_calls; repeat (apply Forall_app; split);
    try (eapply Forall_impl; [exact Hcs|]; by intros c [_ ?]).
  - by repeat constructor.
  - unfold purge_calls. destruct (keyManifest this) eqn:Hkm;
      repeat constructor; unfold permitted; by rewrite ?Hkm.
Qed.

Lemma set_issued_permitted (this : CacheManager) (entry : CacheEntry) (w : World) :
  Forall (fun c => permitted this c = true) (issued (set this entry) w).
Proof.
  unfold issued. rewrite set_world. cbn. rewrite drop_calls.
  destruct (keyManifest this) eqn:Hkm;
    repeat constructor; unfold permitted; by rewrite ?Hkm.
Qed.

Lemma clear_issued_permitted (this : CacheManager) (w : World) :
  Forall (fun c => permitted this c = true) (issued (clear this) w).
Proof.
  unfold issued. rewrite clear_world.
  destruct (fst (getCacheKeys this w)) as [ks|]; cbn; rewrite drop_calls;
    [|apply enumeration_calls_permitted].
  apply Forall_app. split; [apply enumeration_calls_permitted|].
  apply Forall_app. split.
  - apply Forall_fmap, Forall_true. done.
  - destruct (keyManifest this) eqn:Hkm;
      repeat constructor; unfold permitted; by rewrite ?Hkm.
Qed.

(** The enumeration capability is chosen once, by the constructor: a manager
    built over a backend with [allKeys] never calls the manifest, and one
    built over a backend without it never calls [allKeys], in [get], [set]
    and [clear] alike. *)
Theorem calls_follow_backend_capability (cache : ICache) (clientId : string)
    (cacheKey : CacheKey) (adj : Z) (entry : CacheEntry) (w : World) (c : Call) :
  c ∈ issued (get (new_CacheManager cache clientId) cacheKey adj) w
      ++ issued (set (new_CacheManager cache clientId) entry) w
      ++ issued (clear (new_CacheManager cache clientId)) w →
  (uses_manifest c = true → allKeys cache = None) ∧
  (c = CacheAllKeys → is_Some (allKeys cache)).
Proof.
  intros Hc.
  assert (Hp : permitted (new_CacheManager cache clientId) c = true).
  { pose proof (get_issued_permitted (new_CacheManager cache clientId) cacheKey adj w) as Hg.
    pose proof (set_issued_permitted (new_CacheManager cache clientId) entry w) as Hs.
    pose proof (clear_issued_permitted (new_CacheManager cache clientId) w) as Hcl.
    rewrite Forall_forall in Hg, Hs, Hcl.
    rewrite !elem_of_app in Hc. destruct Hc as [?|[?|?]]; auto. }
  unfold permitted, new_CacheManager in Hp. cbn in Hp.
  destruct (allKeys cache) as [enumerate|]; destruct c; cbn in *;
    split; intros; try done; by eexists.
Qed.

(** [get] writes the narrowed entry under the requested key without listing
    that key: when the entry was found under a matched key in a sound world,
    a following [clear] empties the manifest and yet leaves the narrowed
    record in the backend, and the next [get] still returns the refresh
    token. *)
Theorem narrowed_record_survives_clear (this : CacheManager)
    (cacheKey : CacheKey) (adj : Z) (w : World) (ks : list string)
    (matchedKey : string) (wrappedEntry : WrappedCacheEntry) :
  is_Some (keyManifest this) →
  manifest_sound w →
  store w !! toKey cacheKey = None →
  fst (getCacheKeys this w) = Some ks →
  matchExistingCacheKey cacheKey ks = Some matchedKey →
  store w !! matchedKey = Some wrappedEntry →
  expiresAt wrappedEntry - adj < date_now w / 1000 →
  truthy (body_refresh_token (body wrappedEntry)) = true →
  store (snd (clear this (snd (get this cacheKey adj w)))) !! toKey cacheKey
    = Some (narrowed wrappedEntry) ∧
  manifest (snd (clear this (snd (get this cacheKey adj w)))) = None ∧
  fst (get this cacheKey adj (snd (clear this (snd (get this cacheKey adj w)))))
    = Some (refresh_only (body_refresh_token (body wrappedEntry))).
Proof.
  intros Hkm Hsound Hmiss Hkeys Hmatch Hwe Hexp Hr.
  assert (Hfinds : finds this cacheKey w matchedKey wrappedEntry)
    by (by eapply finds_matched).
  assert (Hnotin : toKey cacheKey ∉ ks).
  { intros Hin. rewrite getCacheKeys_manifest in Hkeys by done.
    destruct (Hsound (toKey cacheKey)) as [x Hx]; [|congruence].
    unfold tracked. destruct (manifest w); cbn in *; by simplify_eq. }
  destruct (get_finds this cacheKey adj w _ _ Hfinds) as (cs & _ & ->).
  rewrite get_found_refresh by done. cbn [snd].
  match goal with |- context [clear this ?w1] => set (w1' := w1) end.
  assert (Hkeys1 : fst (getCacheKeys this w1') = Some ks).
  { rewrite getCacheKeys_manifest by done. subst w1'. cbn.
    rewrite <- Hkeys. symmetry. by apply getCacheKeys_manifest. }
  assert (Hstore2 : store (snd (clear this w1')) !! toKey cacheKey
                    = Some (narrowed wrappedEntry)).
  { rewrite clear_world, Hkeys1. cbn. rewrite fold_delete_notin by done.
    subst w1'. cbn. apply lookup_insert_eq. }
  assert (Hnow2 : date_now (snd (clear this w1')) = date_now w).
  { rewrite clear_world, Hkeys1. by subst w1'. }
  split; [exact Hstore2|]. split.
  - rewrite clear_world, Hkeys1. destruct Hkm as [km ->]. done.
  - destruct (get_finds this cacheKey adj (snd (clear this w1')) (toKey cacheKey)
                (narrowed wrappedEntry)) as (cs2 & _ & ->); [by constructor|].
    rewrite get_found_refresh; [done| |done].
    unfold with_calls. cbn [date_now]. by rewrite Hnow2.
Qed.

(** ** More on matching and on [set] *)

(** A key that serves a request serves every request of the same client and
    audience that asks for no token beyond those of the first: the order and
    the repetition of the requested tokens do not matter. *)
Theorem matches_fewer_scopes (keyToMatch keyToMatch' : CacheKey) (key : string) :
  matches keyToMatch key = true →
  key_client_id keyToMatch' = key_client_id keyToMatch →
  key_audience keyToMatch' = key_audience keyToMatch →
  scope_tokens (key_scope keyToMatch') ⊆ scope_tokens (key_scope keyToMatch) →
  matches keyToMatch' key = true.
Proof.
  rewrite !matches_selects. unfold selects. cbv zeta.
  intros (Hp & Hc & Ha & Ht & Hs) -> -> Hsub.
  repeat split; try done. by etrans.
Qed.

(** Of two [set]s under the same derived key the last one wins: backend and
    manifest end as if only the second had run. *)
Theorem set_last_write_wins (this : CacheManager) (entry1 entry2 : CacheEntry)
    (w : World) :
  toKey (new_CacheKey (client_id entry1) (scope entry1) (audience entry1))
    = toKey (new_CacheKey (client_id entry2) (scope entry2) (audience entry2)) →
  store (snd (set this entry2 (snd (set this entry1 w))))
    = store (snd (set this entry2 w)) ∧
  manifest (snd (set this entry2 (snd (set this entry1 w))))
    = manifest (snd (set this entry2 w)).
Proof.
  intros Hkey. rewrite !set_world. cbn. rewrite Hkey.
  split; [by rewrite insert_insert_eq|].
  destruct (keyManifest this); [|done].
  unfold tracked. cbn. by rewrite keys_add_idem.
Qed.

(** An entry that [set] stores expired (its computed expiry, less the
    adjustment, is before the current second) is never read back in full:
    the [get] that follows returns its non-empty refresh token alone, or
    nothing. *)
Theorem get_after_set_expired (this : CacheManager) (entry : CacheEntry)
    (adj : Z) (w : World) :
  Z.min (date_now w / 1000 + expires_in entry)
        (exp (claims (decodedToken entry))) - adj < date_now w / 1000 →
  fst (get this (new_CacheKey (client_id entry) (scope entry) (audience entry))
         adj (snd (set this entry w)))
    = if truthy (refresh_token entry)
      then Some (refresh_only (refresh_token entry))
      else None.
Proof.
  intros Hexp.
  set (cacheKey := new_CacheKey (client_id entry) (scope entry) (audience entry)).
  assert (Hfinds : finds this cacheKey (snd (set this entry w)) (toKey cacheKey)
                     (fst (wrapCacheEntry entry w))).
  { constructor. rewrite set_world. cbn. apply lookup_insert_eq. }
  assert (Hnow : date_now (snd (set this entry w)) = date_now w)
    by (by rewrite set_world).
  destruct (get_finds this cacheKey adj _ _ _ Hfinds) as (cs & _ & ->).
  destruct (truthy (refresh_token entry)) eqn:Hr.
  - rewrite get_found_refresh; [done| |done].
    unfold with_calls. cbn [date_now]. by rewrite Hnow.
  - rewrite get_found_purge; [done| |done].
    unfold with_calls. cbn [date_now]. by rewrite Hnow.
Qed.

Lemma clear_complete_store (this : CacheManager) (w : World) :
  is_Some (keyManifest this) →
  manifest_complete w →
  store (snd (clear this w)) = ∅.
Proof.
  intros Hkm Hcomplete.
  apply map_eq. intros k. rewrite lookup_empty, clear_world.
  rewrite getCacheKeys_manifest by done.
  destruct (manifest w) as [e|] eqn:He; cbn.
  - destruct (decide (k ∈ keys e)) as [Hin|Hout].
    + by apply fold_delete_elem.
    + rewrite fold_delete_notin by done.
      destruct (store w !! k) eqn:Hk; [|done].
      exfalso. apply Hout. specialize (Hcomplete k).
      unfold tracked in Hcomplete. rewrite He in Hcomplete.
      apply Hcomplete. by eexists.
  - destruct (store w !! k) eqn:Hk; [|done].
    specialize (Hcomplete k). unfold tracked in Hcomplete.
    rewrite He in Hcomplete. cbn in Hcomplete.
    exfalso. eapply not_elem_of_nil, Hcomplete. by eexists.
Qed.

(** With a manifest that lists every key the backend holds, [clear] empties
    the backend and deletes the manifest record, and every [get] after it
    returns nothing. *)
Theorem clear_empties_complete_world (this : CacheManager) (w : World)
    (cacheKey : CacheKey) (adj : Z) :
  is_Some (keyManifest this) →
  manifest_complete w →
  store (snd (clear this w)) = ∅ ∧
  manifest (snd (clear this w)) = None ∧
  fst (get this cacheKey adj (snd (clear this w))) = None.
Proof.
  intros Hkm Hcomplete.
  pose proof (clear_complete_store this w Hkm Hcomplete) as Hstore.
  assert (Hmanifest : manifest (snd (clear this w)) = None).
  { rewrite clear_world, getCacheKeys_manifest by done.
    destruct Hkm as [km Hkm]. rewrite Hkm.
    by destruct (manifest w) eqn:He. }
  split; [done|]. split; [done|].
  destruct (get_outcome this cacheKey adj (snd (clear this w)))
    as (cs & _ & [(key & we & Hf & _) | [(key & we & Hf & _)
       | [(key & we & _ & _ & _ & ->) | [_ ->]]]]); try done.
  - inversion Hf as [? Hx|? ? ? _ _ _ Hx]; simplify_eq;
      rewrite Hstore, lookup_empty in Hx; done.
  - inversion Hf as [? Hx|? ? ? _ _ _ Hx]; simplify_eq;
      rewrite Hstore, lookup_empty in Hx; done.
Qed.

(** With a manifest, [set] and [clear] keep the manifest complete (every key
    the backend holds is listed), and so does a [get] whose exact lookup
    hits. *)
Theorem operations_keep_manifest_complete (this : CacheManager)
    (cacheKey : CacheKey) (adj : Z) (entry : CacheEntry) (w : World) :
  is_Some (keyManifest this) →
  manifest_complete w →
  manifest_complete (snd (set this entry w)) ∧
  manifest_complete (snd (clear this w)) ∧
  (is_Some (store w !! toKey cacheKey) →
     manifest_complete (snd (get this cacheKey adj w))).
Proof.
  intros Hkm Hcomplete. split; [|split].
  - destruct Hkm as [km Hkm]. rewrite set_world, Hkm.
    intros k. unfold tracked. cbn. rewrite lookup_insert_is_Some, keys_add_elem.
    intros [<-|[_ Hk]]; [by right|left]. by apply Hcomplete.
  - pose proof (clear_complete_store this w Hkm Hcomplete) as Hstore.
    intros k. rewrite Hstore, lookup_empty. by intros [? ?].
  - intros Hhit.
    destruct (get_outcome this cacheKey adj w)
      as (cs & _ & [(key & we & _ & _ & ->) | [(key & we & Hf & _ & _ & ->)
         | [(key & we & _ & _ & _ & ->) | [_ ->]]]]); cbn.
    + exact Hcomplete.
    + intros k. unfold tracked. cbn. rewrite lookup_insert_is_Some.
      intros [<-|[_ Hk]]; apply Hcomplete; [done|].
      by eapply assigned_is_Some; [eapply finds_stored|].
    + intros k. unfold tracked. cbn. intros [x Hx].
      destruct (decide (k = toKey cacheKey)) as [->|Hne];
        [by rewrite lookup_delete_eq in Hx|].
      rewrite lookup_delete_ne in Hx by done.
      apply tracked_manifest_without_ne; [done|]. apply Hcomplete. by eexists.
    + exact Hcomplete.
Qed.

End Manager.

(** * The statements at sample worlds *)

(** ** Strings and keys *)

Example split_scope : split " " "read write" = ["read"; "write"].
Proof. reflexivity. Qed.

Example split_empty_scope : split " " EmptyString = [EmptyString].
Proof. reflexivity. Qed.

Example split_doubled_space : split " " "a  b" = ["a"; EmptyString; "b"].
Proof. reflexivity. Qed.

Example split_stored_key :
  split "::" stored_key = ["@@auth0spajs@@"; "c1"; "aud1"; "read write"].
Proof. reflexivity. Qed.

Example split_three_colons : split "::" "a:::b" = ["a"; ":b"].
Proof. reflexivity. Qed.

Example toKey_request : toKey (request "read write") = stored_key.
Proof. reflexivity. Qed.

Example fromKey_short :
  fromKey "@@auth0spajs@@::c1"
  = {| parsed_prefix := Some "@@auth0spajs@@"; parsed_client_id := Some "c1";
       parsed_audience := None; parsed_scope := None |}.
Proof. reflexivity. Qed.

(** ** Two scenarios *)

(** A request for scope [read] is served from the entry stored for
    [read write], which has not expired. *)
Example scenario_superset :
  fst (get sample_prefix manifest_manager (request "read") 0
         (sample_world None 1000999))
  = Some (as_body (sample_entry None)).
Proof. vm_compute. reflexivity. Qed.

(** With an entry stored for scope [write] only, the same request gets
    nothing. *)
Example scenario_write_only :
  fst (get sample_prefix manifest_manager (request "read") 0
         {| store := {[ "@@auth0spajs@@::c1::aud1::write" := sample_stored None ]};
            manifest := Some {| keys := ["@@auth0spajs@@::c1::aud1::write"] |};
            date_now := 1000999;
            calls := [] |})
  = None.
Proof. vm_compute. reflexivity. Qed.

(** ** The theorems at work *)

(** C1 at a failing input: the request for scope [read] finds, by matching,
    the expired entry stored under [stored_key], which has no refresh token.
    [get] returns nothing and issues its two removals for the requested key,
    which the backend does not hold; the backend and the manifest are left
    as they were, so the entry stays under the key it was stored under, in
    the backend and in the manifest, against what C1 states. *)
Lemma purge_as_stated_fails :
  finds sample_prefix manifest_manager (request "read")
    (sample_world None 2000000) stored_key (sample_stored None) ∧
  fst (get sample_prefix manifest_manager (request "read") 0
         (sample_world None 2000000)) = None ∧
  filter (fun c => is_mutation c = true)
    (issued (get sample_prefix manifest_manager (request "read") 0)
       (sample_world None 2000000))
    = [CacheRemove (toKey (request "read"));
       ManifestRemove (toKey (request "read"))] ∧
  store (snd (get sample_prefix manifest_manager (request "read") 0
                (sample_world None 2000000)))
    = store (sample_world None 2000000) ∧
  store (snd (get sample_prefix manifest_manager (request "read") 0
                (sample_world None 2000000))) !! stored_key
    = Some (sample_stored None) ∧
  stored_key ∈ tracked (snd (get sample_prefix manifest_manager (request "read") 0
                               (sample_world None 2000000))) ∧
  ¬ purge_as_stated sample_prefix manifest_manager (request "read") 0
      (sample_world None 2000000).
Proof.
  assert (Hfinds : finds sample_prefix manifest_manager (request "read")
            (sample_world None 2000000) stored_key (sample_stored None))
    by (eapply finds_matched; vm_compute; reflexivity).
  split; [exact Hfinds|].
  split; [vm_compute; reflexivity|].
  split; [vm_compute; reflexivity|].
  split; [vm_compute; reflexivity|].
  split; [vm_compute; reflexivity|].
  split; [vm_compute; apply list_elem_of_here|].
  intros H.
  destruct (H stored_key (sample_stored None)) as (_ & Hgone & _).
  - exact Hfinds.
  - vm_compute; reflexivity.
  - reflexivity.
  - vm_compute in Hgone. discriminate Hgone.
Qed.

(** The purge on an exact hit, for the same entry requested by its own key. *)
Lemma get_purges_exact_hit_witness :
  fst (get sample_prefix manifest_manager (request "read write") 0
         (sample_world None 2000000)) = None ∧
  store (snd (get sample_prefix manifest_manager (request "read write") 0
                (sample_world None 2000000))) !! stored_key = None.
Proof.
  destruct (get_purges_exact_hit sample_prefix manifest_manager
              (request "read write") 0 (sample_world None 2000000)
              (sample_stored None))
    as (Hnone & Hgone & _); try (vm_compute; reflexivity).
  split; [exact Hnone | exact Hgone].
Defined.

(** C2, as first stated, fails for an empty [refresh_token]: the field is
    there, the test of [get] finds it falsy, and the entry is purged. *)
Lemma refresh_as_stated_fails :
  finds sample_prefix manifest_manager (request "read write")
    (sample_world (Some EmptyString) 2000000) stored_key
    (sample_stored (Some EmptyString)) ∧
  fst (get sample_prefix manifest_manager (request "read write") 0
         (sample_world (Some EmptyString) 2000000)) = None ∧
  store (snd (get sample_prefix manifest_manager (request "read write") 0
                (sample_world (Some EmptyString) 2000000))) !! stored_key = None ∧
  ¬ refresh_as_stated sample_prefix manifest_manager (request "read write") 0
      (sample_world (Some EmptyString) 2000000).
Proof.
  assert (Hfinds : finds sample_prefix manifest_manager (request "read write")
            (sample_world (Some EmptyString) 2000000) stored_key
            (sample_stored (Some EmptyString))).
  { apply (finds_exact sample_prefix manifest_manager (request "read write")
             (sample_world (Some EmptyString) 2000000)
             (sample_stored (Some EmptyString))).
    vm_compute; reflexivity. }
  split; [exact Hfinds|].
  split; [vm_compute; reflexivity|].
  split; [vm_compute; reflexivity|].
  intros H.
  destruct (H stored_key (sample_stored (Some EmptyString)) EmptyString)
    as (Hret & _).
  - exact Hfinds.
  - vm_compute; reflexivity.
  - reflexivity.
  - vm_compute in Hret. discriminate Hret.
Qed.

(** The narrowing at work, for the refresh token [r1]. *)
Lemma get_narrows_to_refresh_token_witness :
  fst (get sample_prefix manifest_manager (request "read write") 0
         (sample_world (Some "r1") 2000000)) = Some (refresh_only (Some "r1")) ∧
  store (snd (get sample_prefix manifest_manager (request "read write") 0
                (sample_world (Some "r1") 2000000))) !! stored_key
    = Some {| body := refresh_only (Some "r1"); expiresAt := 1100 |}.
Proof.
  apply (get_narrows_to_refresh_token sample_prefix manifest_manager
           (request "read write") 0 (sample_world (Some "r1") 2000000)
           stored_key (sample_stored (Some "r1")) "r1").
  - apply (finds_exact sample_prefix manifest_manager (request "read write")
             (sample_world (Some "r1") 2000000) (sample_stored (Some "r1"))).
    vm_compute; reflexivity.
  - vm_compute; reflexivity.
  - reflexivity.
  - discriminate.
Defined.

(** C3, as first stated, fails for a candidate with an empty scope: its
    tokens include the one token of the empty requested scope, and the guard
    of the code rejects it. *)
Lemma matching_as_stated_fails :
  selects_as_specified sample_prefix (request EmptyString) scopeless_key ∧
  matches sample_prefix (request EmptyString) scopeless_key = false ∧
  ¬ matching_as_stated sample_prefix (request EmptyString) scopeless_key.
Proof.
  assert (Hspec : selects_as_specified sample_prefix (request EmptyString)
                    scopeless_key) by (repeat split; reflexivity).
  assert (Hcode : matches sample_prefix (request EmptyString) scopeless_key = false)
    by (vm_compute; reflexivity).
  split; [exact Hspec|]. split; [exact Hcode|].
  intros [_ H]. rewrite (H Hspec) in Hcode. discriminate Hcode.
Qed.

(** The rule at work on the scopes [a b c], [a b] and [a d]. *)
Lemma matching_rule_witness :
  matches sample_prefix (request "a b") "@@auth0spajs@@::c1::aud1::a b c" = true ∧
  matches sample_prefix (request "a d") "@@auth0spajs@@::c1::aud1::a b c" = false ∧
  matches sample_prefix (request "a b") "@@auth0spajs@@::c1::aud2::a b c" = false.
Proof.
  split; [|split].
  - destruct (matching_rule sample_prefix (request "a b") []
                "@@auth0spajs@@::c1::aud1::a b c") as (_ & H & _).
    apply H; reflexivity.
  - destruct (matching_rule sample_prefix (request "a d") []
                "@@auth0spajs@@::c1::aud1::a b c") as (_ & H & _).
    apply H; reflexivity.
  - destruct (matching_rule sample_prefix (request "a b") []
                "@@auth0spajs@@::c1::aud2::a b c") as (_ & _ & H).
    apply H. left. vm_compute. discriminate.
Defined.

(** Two keys satisfy the request; the earlier one is returned. *)
Lemma matchExistingCacheKey_first_in_order_witness :
  matches sample_prefix (request "read write") wider_key = true ∧
  matches sample_prefix (request "read write") stored_key = true ∧
  matchExistingCacheKey sample_prefix (request "read write")
    [scopeless_key; wider_key; stored_key] = Some wider_key.
Proof.
  split; [vm_compute; reflexivity|]. split; [vm_compute; reflexivity|].
  apply (matchExistingCacheKey_first_in_order sample_prefix (request "read write")
           [scopeless_key; wider_key; stored_key] wider_key).
  exists [scopeless_key], [stored_key].
  split; [reflexivity|]. split; [vm_compute; reflexivity|].
  constructor; [vm_compute; reflexivity|constructor].
Defined.

(** A miss on a matched key the backend has lost. *)
Lemma get_miss_returns_nothing_witness :
  matchExistingCacheKey sample_prefix (request "read") (tracked stale_world)
    = Some stored_key ∧
  fst (get sample_prefix manifest_manager (request "read") 0 stale_world) = None.
Proof.
  split; [vm_compute; reflexivity|].
  apply (get_miss_returns_nothing sample_prefix manifest_manager (request "read")
           0 stale_world).
  - vm_compute; reflexivity.
  - right. right. exists [stored_key], stored_key.
    split; [reflexivity|]. split; vm_compute; reflexivity.
Defined.

(** [set] with the key listed already, and with no manifest record yet. *)
Lemma set_registers_key_witness :
  tracked (snd (set sample_prefix manifest_manager (sample_entry None) stale_world))
    = tracked stale_world ∧
  tracked (snd (set sample_prefix manifest_manager (sample_entry None)
                  {| store := ∅; manifest := None; date_now := 1000999;
                     calls := [] |}))
    = [stored_key].
Proof.
  split.
  - apply (set_registers_key sample_prefix
             {| allKeys := None; synchronous := true; shares_records := false |}
             "c1" (sample_entry None) stale_world); [reflexivity|].
    vm_compute. apply list_elem_of_here.
  - apply (set_registers_key sample_prefix
             {| allKeys := None; synchronous := true; shares_records := false |}
             "c1" (sample_entry None)
             {| store := ∅; manifest := None; date_now := 1000999; calls := [] |});
      [reflexivity|].
    vm_compute. apply not_elem_of_nil.
Defined.

(** [clear] on a world with one entry and its manifest. *)
Lemma clear_removes_enumerated_keys_witness :
  store (snd (clear manifest_manager (sample_world None 2000000))) !! stored_key
    = None ∧
  issued (clear manifest_manager) (sample_world None 2000000)
    = [ManifestGet; CacheRemove stored_key; ManifestClear] ∧
  manifest (snd (clear manifest_manager (sample_world None 2000000))) = None.
Proof.
  destruct (clear_removes_enumerated_keys manifest_manager
              (sample_world None 2000000)) as (Hkeys & _ & Hmanifest).
  destruct (Hkeys [stored_key]) as [Hgone Hcalls]; [reflexivity|].
  split; [apply Hgone, list_elem_of_here|].
  split; [exact Hcalls|].
  apply Hmanifest. by eexists.
Defined.

(** An entry expiring at second 1100, read during second 1100. *)
Lemma get_expiry_test_strict_witness :
  fst (get sample_prefix manifest_manager (request "read write") 0
         (sample_world (Some "r1") 1100999))
    = Some (as_body (sample_entry (Some "r1"))) ∧
  store (snd (get sample_prefix manifest_manager (request "read write") 0
                (sample_world (Some "r1") 1100999)))
    = store (sample_world (Some "r1") 1100999).
Proof.
  destruct (get_expiry_test_strict sample_prefix manifest_manager
              (request "read write") 0 (sample_world (Some "r1") 1100999)
              stored_key (sample_stored (Some "r1"))) as [_ Hfresh].
  - apply (finds_exact sample_prefix manifest_manager (request "read write")
             (sample_world (Some "r1") 1100999) (sample_stored (Some "r1"))).
    vm_compute; reflexivity.
  - destruct Hfresh as (Hbody & Hstore & _); [vm_compute; reflexivity|].
    split; [exact Hbody | exact Hstore].
Defined.

(** C10, as first stated, fails on a store in memory: the narrowing for the
    request [read] assigns the body on the object stored under [stored_key],
    so the record under the matched key is narrowed too. *)
Lemma targets_as_stated_fails :
  store (sample_world (Some "r1") 2000000) !! stored_key
    = Some (sample_stored (Some "r1")) ∧
  matchExistingCacheKey sample_prefix (request "read") [stored_key]
    = Some stored_key ∧
  store (snd (get sample_prefix memory_manager (request "read") 0
                (sample_world (Some "r1") 2000000))) !! stored_key
    = Some (narrowed (sample_stored (Some "r1"))) ∧
  narrowed (sample_stored (Some "r1")) ≠ sample_stored (Some "r1") ∧
  ¬ targets_as_stated sample_prefix memory_manager (request "read") 0
      (sample_world (Some "r1") 2000000).
Proof.
  split; [vm_compute; reflexivity|].
  split; [vm_compute; reflexivity|].
  split; [vm_compute; reflexivity|].
  split; [vm_compute; discriminate|].
  intros H.
  destruct (H [stored_key] stored_key (sample_stored (Some "r1")))
    as [Hrefresh _]; try (vm_compute; reflexivity).
  destruct Hrefresh as [_ Hkept]; [reflexivity|].
  vm_compute in Hkept. discriminate Hkept.
Qed.

(** Both expiry paths on an entry found under a matched key. *)
Lemma get_expiry_targets_requested_key_witness :
  store (snd (get sample_prefix manifest_manager (request "read") 0
                (sample_world (Some "r1") 2000000)))
    !! toKey (request "read") = Some (narrowed (sample_stored (Some "r1"))) ∧
  store (snd (get sample_prefix manifest_manager (request "read") 0
                (sample_world (Some "r1") 2000000)))
    !! stored_key = Some (sample_stored (Some "r1")) ∧
  store (snd (get sample_prefix manifest_manager (request "read") 0
                (sample_world None 2000000)))
    !! stored_key = Some (sample_stored None).
Proof.
  destruct (get_expiry_targets_requested_key sample_prefix manifest_manager
              (request "read") 0 (sample_world (Some "r1") 2000000)
              [stored_key] stored_key (sample_stored (Some "r1")))
    as [Hrefresh _]; try (vm_compute; reflexivity).
  destruct (get_expiry_targets_requested_key sample_prefix manifest_manager
              (request "read") 0 (sample_world None 2000000)
              [stored_key] stored_key (sample_stored None))
    as [_ Hpurge]; try (vm_compute; reflexivity).
  destruct Hrefresh as (Hreq & Hkept & _); [reflexivity|].
  destruct Hpurge as (Hstill & _); [reflexivity|].
  split; [exact Hreq|]. split; [exact Hkept | exact Hstill].
Defined.

(** Written at second 1000 with 100 seconds to live: read back in full at
    second 1050, and not at second 1101. *)
Lemma get_after_set_witness :
  fst (get sample_prefix manifest_manager (request "read write") 0
         (at_time (snd (set sample_prefix manifest_manager (sample_entry None)
                          stale_world)) 1050000))
    = Some (as_body (sample_entry None)) ∧
  fst (get sample_prefix manifest_manager (request "read write") 0
         (at_time (snd (set sample_prefix manifest_manager (sample_entry None)
                          stale_world)) 1101000))
    = None.
Proof.
  split.
  - exact (get_after_set sample_prefix manifest_manager (sample_entry None) 0
             stale_world 1050000).
  - exact (get_after_set sample_prefix manifest_manager (sample_entry None) 0
             stale_world 1101000).
Defined.

(** The scenario of a wider stored scope, through the theorem. *)
Lemma get_returns_matched_entry_witness :
  fst (get sample_prefix manifest_manager (request "read") 0
         (sample_world None 1000999))
    = Some (body (sample_stored None)).
Proof.
  apply (get_returns_matched_entry sample_prefix manifest_manager (request "read")
           0 (sample_world None 1000999) [stored_key] stored_key
           (sample_stored None)); vm_compute; try reflexivity.
  discriminate.
Defined.

(** ** Further properties at work *)

Lemma sample_world_sound (refresh : option string) (now : Z) :
  manifest_sound (sample_world refresh now).
Proof.
  intros k Hk. apply list_elem_of_singleton in Hk as ->.
  exists (sample_stored refresh). unfold sample_world. cbn [store].
  apply lookup_singleton_eq.
Qed.

Lemma sample_world_complete (refresh : option string) (now : Z) :
  manifest_complete (sample_world refresh now).
Proof.
  intros k [x Hx]. unfold sample_world in Hx. cbn in Hx.
  apply lookup_singleton_Some in Hx as [<- _]. apply list_elem_of_here.
Qed.

(** [clearSync] over a backend without [allKeys], over one whose [allKeys]
    answers with a promise, and over a synchronous one. *)
Lemma clearSync_outcome_witness :
  clearSync manifest_manager (sample_world None 2000000)
    = (ThrewTypeError, sample_world None 2000000) ∧
  clearSync promise_manager (sample_world None 2000000)
    = (ThrewTypeError,
       with_calls (sample_world None 2000000) [CacheAllKeys]) ∧
  clearSync native_manager (sample_world None 2000000)
    = (Returned tt, snd (clear native_manager (sample_world None 2000000))).
Proof.
  split; [|split].
  - exact (clearSync_outcome
             {| allKeys := None; synchronous := true; shares_records := false |}
             "c1" (sample_world None 2000000)).
  - exact (clearSync_outcome
             {| allKeys := Some (fun m => elements (dom m)); synchronous := false;
                shares_records := false |}
             "c1" (sample_world None 2000000)).
  - exact (clearSync_outcome
             {| allKeys := Some (fun m => elements (dom m)); synchronous := true;
                shares_records := false |}
             "c1" (sample_world None 2000000)).
Defined.

(** A narrowing for the request [read] on a store in memory: the record
    under [stored_key], where the entry was found, is narrowed as well, with
    its expiry as before; on a store that hands out copies it is as it
    was. *)
Lemma get_leaves_other_records_witness :
  store (snd (get sample_prefix memory_manager (request "read") 0
                (sample_world (Some "r1") 2000000))) !! stored_key
    = Some (narrowed (sample_stored (Some "r1"))) ∧
  store (snd (get sample_prefix manifest_manager (request "read") 0
                (sample_world (Some "r1") 2000000))) !! stored_key
    = store (sample_world (Some "r1") 2000000) !! stored_key.
Proof.
  split.
  - destruct (get_leaves_other_records sample_prefix memory_manager
                (request "read") 0 (sample_world (Some "r1") 2000000) stored_key)
      as (_ & Hfound & _); [vm_compute; discriminate|].
    apply (Hfound (sample_stored (Some "r1"))).
    eapply finds_matched; vm_compute; reflexivity.
  - destruct (get_leaves_other_records sample_prefix manifest_manager
                (request "read") 0 (sample_world (Some "r1") 2000000) stored_key)
      as (Hsame & _); [vm_compute; discriminate|].
    apply Hsame. by left.
Defined.

(** A [set] for scope [read write] leaves the record under [wider_key]. *)
Lemma set_touches_derived_key_only_witness :
  store (snd (set sample_prefix manifest_manager (sample_entry None)
                (sample_world None 2000000))) !! wider_key
    = store (sample_world None 2000000) !! wider_key.
Proof.
  apply (set_touches_derived_key_only sample_prefix manifest_manager
           (sample_entry None) (sample_world None 2000000) wider_key).
  vm_compute. discriminate.
Defined.

(** [clear] passes over a record the manifest does not list. *)
Lemma clear_keeps_other_keys_witness :
  store (snd (clear manifest_manager
                {| store := {[ wider_key := sample_stored None ]};
                   manifest := Some {| keys := [stored_key] |};
                   date_now := 2000000; calls := [] |})) !! wider_key
    = Some (sample_stored None).
Proof.
  rewrite (clear_keeps_other_keys manifest_manager
             {| store := {[ wider_key := sample_stored None ]};
                manifest := Some {| keys := [stored_key] |};
                date_now := 2000000; calls := [] |} wider_key).
  - vm_compute. reflexivity.
  - intros ks [= <-]. intros Hin. apply list_elem_of_singleton in Hin.
    vm_compute in Hin. discriminate Hin.
Defined.

(** The body returned for an expired entry with the refresh token [r1]. *)
Lemma get_result_is_fresh_or_refresh_only_witness :
  ∃ key wrappedEntry,
    finds sample_prefix manifest_manager (request "read write")
      (sample_world (Some "r1") 2000000) key wrappedEntry ∧
    ((date_now (sample_world (Some "r1") 2000000) / 1000
        ≤ expiresAt wrappedEntry - 0 ∧
      refresh_only (Some "r1") = body wrappedEntry) ∨
     (expiresAt wrappedEntry - 0
        < date_now (sample_world (Some "r1") 2000000) / 1000 ∧
      truthy (body_refresh_token (body wrappedEntry)) = true ∧
      refresh_only (Some "r1")
        = refresh_only (body_refresh_token (body wrappedEntry)) ∧
      body_access_token (refresh_only (Some "r1")) = None)).
Proof.
  apply (get_result_is_fresh_or_refresh_only sample_prefix manifest_manager
           (request "read write") 0 (sample_world (Some "r1") 2000000)
           (refresh_only (Some "r1"))).
  vm_compute. reflexivity.
Defined.

(** Reading twice an expired entry with the refresh token [r1]. *)
Lemma get_refresh_settles_witness :
  fst (get sample_prefix manifest_manager (request "read write") 0
         (snd (get sample_prefix manifest_manager (request "read write") 0
                 (sample_world (Some "r1") 2000000))))
    = fst (get sample_prefix manifest_manager (request "read write") 0
             (sample_world (Some "r1") 2000000)).
Proof.
  apply (get_refresh_settles sample_prefix manifest_manager (request "read write")
           0 (sample_world (Some "r1") 2000000) stored_key
           (sample_stored (Some "r1"))).
  - apply (finds_exact sample_prefix manifest_manager (request "read write")
             (sample_world (Some "r1") 2000000) (sample_stored (Some "r1"))).
    vm_compute; reflexivity.
  - vm_compute; reflexivity.
  - reflexivity.
Defined.

(** Fresh with an adjustment of 50 seconds, hence with none. *)
Lemma get_smaller_adjustment_witness :
  fst (get sample_prefix manifest_manager (request "read write") 0
         (sample_world None 1000999))
    = Some (body (sample_stored None)).
Proof.
  apply (get_smaller_adjustment sample_prefix manifest_manager
           (request "read write") 50 0 (sample_world None 1000999) stored_key
           (sample_stored None)).
  - apply (finds_exact sample_prefix manifest_manager (request "read write")
             (sample_world None 1000999) (sample_stored None)).
    vm_compute; reflexivity.
  - vm_compute. discriminate.
  - vm_compute. discriminate.
Defined.

(** The sample world stays sound through a purge. *)
Lemma operations_keep_manifest_sound_witness :
  manifest_sound (snd (get sample_prefix manifest_manager (request "read write") 0
                         (sample_world None 2000000))).
Proof.
  destruct (operations_keep_manifest_sound sample_prefix manifest_manager
              (request "read write") 0 (sample_entry None)
              (sample_world None 2000000)) as (Hget & _ & _).
  - by eexists.
  - apply sample_world_sound.
  - exact Hget.
Defined.

(** The manager with a manifest enumerates through it, never through
    [allKeys]. *)
Lemma calls_follow_backend_capability_witness :
  ManifestGet ∈ issued (clear manifest_manager) (sample_world None 2000000) ∧
  CacheAllKeys ∉ issued (clear manifest_manager) (sample_world None 2000000).
Proof.
  split; [vm_compute; apply list_elem_of_here|].
  intros Hin.
  destruct (calls_follow_backend_capability sample_prefix
              {| allKeys := None; synchronous := true; shares_records := false |}
              "c1" (request "read") 0 (sample_entry None)
              (sample_world None 2000000) CacheAllKeys) as [_ Hnative].
  - rewrite !elem_of_app. right. right. exact Hin.
  - destruct (Hnative eq_refl) as [x Hx]. discriminate Hx.
Defined.

(** After a narrowing for the request [read], [clear] leaves the narrowed
    record and the next [get] returns the refresh token [r1]. *)
Lemma narrowed_record_survives_clear_witness :
  store (snd (clear manifest_manager
                (snd (get sample_prefix manifest_manager (request "read") 0
                        (sample_world (Some "r1") 2000000)))))
    !! toKey (request "read")
    = Some (narrowed (sample_stored (Some "r1"))) ∧
  fst (get sample_prefix manifest_manager (request "read") 0
         (snd (clear manifest_manager
                 (snd (get sample_prefix manifest_manager (request "read") 0
                         (sample_world (Some "r1") 2000000))))))
    = Some (refresh_only (Some "r1")).
Proof.
  destruct (narrowed_record_survives_clear sample_prefix manifest_manager
              (request "read") 0 (sample_world (Some "r1") 2000000)
              [stored_key] stored_key (sample_stored (Some "r1")))
    as (Hstore & _ & Hget); try (vm_compute; reflexivity).
  - by eexists.
  - apply sample_world_sound.
  - split; [exact Hstore | exact Hget].
Defined.

(** The key stored for [read write admin] serves [read write admin], hence
    [admin read]. *)
Lemma matches_fewer_scopes_witness :
  matches sample_prefix (request "admin read") wider_key = true.
Proof.
  apply (matches_fewer_scopes sample_prefix (request "read write admin")
           (request "admin read") wider_key);
    try (vm_compute; reflexivity).
  apply (bool_decide_unpack _). vm_compute. exact I.
Defined.

(** Two entries for the same client, audience and scope. *)
Lemma set_last_write_wins_witness :
  store (snd (set sample_prefix manifest_manager (sample_entry (Some "r1"))
                (snd (set sample_prefix manifest_manager (sample_entry None)
                        stale_world))))
    = store (snd (set sample_prefix manifest_manager (sample_entry (Some "r1"))
                    stale_world)).
Proof.
  apply (set_last_write_wins sample_prefix manifest_manager (sample_entry None)
           (sample_entry (Some "r1")) stale_world).
  reflexivity.
Defined.

(** Stored during second 6000 with a token that expired at second 5000. *)
Lemma get_after_set_expired_witness :
  fst (get sample_prefix manifest_manager (request "read write") 0
         (snd (set sample_prefix manifest_manager (sample_entry (Some "r1"))
                 (sample_world None 6000000))))
    = Some (refresh_only (Some "r1")).
Proof.
  apply (get_after_set_expired sample_prefix manifest_manager
           (sample_entry (Some "r1")) 0 (sample_world None 6000000)).
  vm_compute. reflexivity.
Defined.

(** [clear] on the sample world, then any [get]. *)
Lemma clear_empties_complete_world_witness :
  store (snd (clear manifest_manager (sample_world None 1000999))) = ∅ ∧
  fst (get sample_prefix manifest_manager (request "read") 0
         (snd (clear manifest_manager (sample_world None 1000999)))) = None.
Proof.
  destruct (clear_empties_complete_world sample_prefix manifest_manager
              (sample_world None 1000999) (request "read") 0)
    as (Hstore & _ & Hget).
  - by eexists.
  - apply sample_world_complete.
  - split; [exact Hstore | exact Hget].
Defined.

(** The sample world stays complete through a [set]. *)
Lemma operations_keep_manifest_complete_witness :
  manifest_complete (snd (set sample_prefix manifest_manager (sample_entry None)
                            (sample_world None 1000999))).
Proof.
  destruct (operations_keep_manifest_complete sample_prefix manifest_manager
              (request "read") 0 (sample_entry None) (sample_world None 1000999))
    as (Hset & _ & _).
  - by eexists.
  - apply sample_world_complete.
  - exact Hset.
Defined.
